(** * LSH nearest-neighbour search (notebook Part 2): a shallow embedding

    The notebook defines six functions that matter here:
    [semi_optimized_exhaustive_search], [compute_recall_at_k],
    [generate_random_hash_functions], [hash_vector],
    [custom_indexing_algorithm] and [custom_index_search].

    Modelling conventions.
    - An array of shape (N, D) is a record carrying D and the list of its N
      rows; an entry is the rational value of the float stored there.
    - Subtracting arrays and taking [np.linalg.norm] round their results.
      The functions that compute distances take the [arithmetic] that does
      so as their first argument; [binary64] is the arithmetic of float64
      arrays and [exact_squares] one without rounding.
    - Python exceptions are values of [exn]; a call that may raise returns a
      [result].
    - A Python [dict] keyed by signature tuples is a [gmap], a Python [set]
      of ids is a [gset]; [list(s)] is [list_of_set s], the members in
      ascending order (which is the order CPython gives a set of small
      ints); no statement with a variable set relies on that order.
    - The ambient [np.random] generator is an explicit [RandomState].
    - [np.array(rows)] of a list of per-query rows depends on the NumPy at
      hand when the rows differ in length; the two search functions take the
      behaviour as their first argument (see [np_array]). *)

From Stdlib Require Import ZArith QArith Qround Lia Lqa List Floats.
From stdpp Require Import base option list sorting gmap.

Local Open Scope Z_scope.
Local Close Scope Q_scope.

(** ** Python exceptions and results *)

Inductive exn : Set :=
  | TypeError
  | ValueError
  | IndexError
  | ZeroDivisionError.

Inductive result (A : Type) : Type :=
  | Ok (a : A)
  | Raise (e : exn).
Arguments Ok {A} a.
Arguments Raise {A} e.

#[global] Instance result_ret : MRet result := fun _ a => Ok a.
#[global] Instance result_bind : MBind result := fun _ _ f r =>
  match r with
  | Ok a => f a
  | Raise e => Raise e
  end.

(** [[f(x) for x in l]] where [f] may raise: the first exception wins. *)
Fixpoint for_each {A B} (f : A -> result B) (l : list A) : result (list B) :=
  match l with
  | [] => Ok []
  | x :: l' => y ← f x; ys ← for_each f l'; Ok (y :: ys)
  end.

Definition is_ok {A} (r : result A) : bool :=
  match r with Ok _ => true | Raise _ => false end.

(** ** NumPy arrays of shape (N, D) *)

Definition vector := list Q.

Record ndarray : Type := mk_ndarray {
  ncols : nat;            (* shape[1] *)
  rows : list vector      (* the shape[0] rows, in order *)
}.

Definition nrows (a : ndarray) : nat := length (rows a).

(** Representation invariant of a rectangular array. *)
Definition well_shaped (a : ndarray) : Prop :=
  Forall (fun r => length r = ncols a) (rows a).

(** ** Floating-point arithmetic on rows

    [fl_sub x y] is the float that [x - y] yields and [fl_norm v] the float
    that [np.linalg.norm] yields on the row [v]; both are given by their
    values. Comparing two floats is comparing their values, so [argsort]
    needs nothing more. (Infinities and NaN are left out.) *)

Record arithmetic : Type := mk_arithmetic {
  fl_sub : Q -> Q -> Q;
  fl_norm : vector -> Q
}.

(** The float64 nearest to an integer; the float64 quotient of numerator and
    denominator, which is the entry itself when the entry is the value of a
    float64 and the nearest float64 when it is a short decimal such as 1/10;
    and the value of a finite float64. *)
Definition float_of_Z (z : Z) : float :=
  SF2Prim (SpecFloat.binary_normalize 53 1024 z 0 false).

Definition float_of_Q (x : Q) : float :=
  PrimFloat.div (float_of_Z (Qnum x)) (float_of_Z (Zpos (Qden x))).

Definition Q_of_float (f : float) : Q :=
  match Prim2SF f with
  | S754_finite s m e =>
      let z := if s then Zneg m else Zpos m in
      if 0 <=? e then inject_Z (z * 2 ^ e)
      else Qmake z (Z.to_pos (2 ^ (- e)))
  | _ => 0%Q
  end.

(** float64 arrays: each entry of the difference is rounded, each square is
    rounded, the squares are added from left to right (NumPy's order for
    rows of fewer than 8 entries) and the root is rounded. *)
Definition binary64 : arithmetic :=
  mk_arithmetic
    (fun x y => Q_of_float (PrimFloat.sub (float_of_Q x) (float_of_Q y)))
    (fun v =>
       Q_of_float
         (PrimFloat.sqrt
            (foldl PrimFloat.add (float_of_Z 0)
                   (map (fun x => PrimFloat.mul (float_of_Q x) (float_of_Q x))
                        v)))).

(** ** The ambient random generator *)

Record RandomState : Type := mk_RandomState {
  normal : nat -> Q;      (* the sequence of standard-normal draws *)
  cursor : nat            (* how many draws have been consumed *)
}.

(** [np.random.randn(h, d)]: the next [h * d] draws, row by row. *)
Definition randn (h d : nat) (st : RandomState) : ndarray * RandomState :=
  (mk_ndarray d
     (map (fun i => map (fun c => normal st (cursor st + i * d + c)%nat) (seq 0 d))
          (seq 0 h)),
   mk_RandomState (normal st) (cursor st + h * d)%nat).

(** [[np.random.randn(h, d) for _ in range(n)]]. *)
Fixpoint randn_family (n h d : nat) (st : RandomState)
  : list ndarray * RandomState :=
  match n with
  | O => ([], st)
  | S n' =>
      let '(m, st1) := randn h d st in
      let '(ms, st2) := randn_family n' h d st1 in
      (m :: ms, st2)
  end.

(** ** [int(dim ** e)] for the two exponent literals of the notebook

    For a positive integer base the power is a positive real and [int]
    truncates it. Python evaluates [dim ** e] in double precision, with [e]
    the double nearest to the literal:
    - the double nearest to [0.65] lies just above 13/20, and the integer
      part of the power is the largest [h] with [h^20 <= dim^13];
    - the double nearest to [0.6] lies just below 3/5, so when [dim^(3/5)]
      is a whole number [m] (a perfect fifth power such as 243) the computed
      power falls short of [m] and [int] gives [m - 1]: the integer part is
      the largest [h] with [h^5 < dim^3] (Python: [int(243 ** 0.6)] is 26).
    [below] records on which side of [p/q] the double lies. The search counts
    [h] up from 0. For base 0 the power is [0.0]. For a negative base and a
    fractional exponent Python returns a complex number, on which [int]
    raises [TypeError].

    The computed power carries a rounding error of its own, so the two
    characterisations are those of the double only while the power stays
    away from the next whole number by more than that error: this is the
    case for every base from 1 to 149 with [0.65] and for every base from
    150 to 1000000 with [0.6]. It fails for larger bases ([int(2124921578
    ** 0.6)] is 394825, the root is 394826), and the statements about the
    number of rows are limited to bases up to 1000000. *)

Definition still_within (below : bool) (x target : Z) : bool :=
  if below then x <? target else x <=? target.

Fixpoint root_search (fuel : nat) (below : bool) (target : Z) (q : Z) (h : Z)
  : Z :=
  match fuel with
  | O => h
  | S fuel' =>
      if still_within below ((h + 1) ^ q) target
      then root_search fuel' below target q (h + 1)
      else h
  end.

Definition floor_pow (below : bool) (dim p q : Z) : Z :=
  root_search (Z.to_nat dim) below (dim ^ p) q 0.

Definition int_pow (below : bool) (dim p q : Z) : result Z :=
  if dim <? 0 then Raise TypeError
  else if dim =? 0 then Ok 0
  else Ok (floor_pow below dim p q).

(** ** [generate_random_hash_functions] *)

Definition generate_random_hash_functions (dim : Z) (st : RandomState)
  : result (list ndarray) * RandomState :=
  let num_hashes : nat := if dim <? 150 then 7%nat else 12%nat in
  let size := if dim <? 150 then int_pow false dim 13 20
              else int_pow true dim 3 5 in
  match size with
  | Raise e => (Raise e, st)
  | Ok hash_size =>
      let '(fam, st') :=
        randn_family num_hashes (Z.to_nat hash_size) (Z.to_nat dim) st in
      (Ok fam, st')
  end.

(** ** Python and NumPy primitives used by the search code *)

(** [enumerate(l)]. *)
Definition enumerate {A} (l : list A) : list (nat * A) :=
  zip (seq 0 (length l)) l.

(** A [for] loop that threads a state and stops at the first exception. *)
Fixpoint for_fold {S A} (body : S -> A -> result S) (l : list A) (s : S)
  : result S :=
  match l with
  | [] => Ok s
  | x :: l' => s' ← body s x; for_fold body l' s'
  end.

(** [l[:k]] for a Python integer [k]: a negative [k] drops from the end. *)
Definition slice_to {A} (k : Z) (l : list A) : list A :=
  if 0 <=? k then take (Z.to_nat k) l
  else take (length l - Z.to_nat (- k))%nat l.

(** [a[ids]] with a list of positions: [IndexError] when one is out of
    range. *)
Definition fancy_index {A} (a : list A) (ids : list nat) : result (list A) :=
  for_each (fun i => match a !! i with
                     | Some x => Ok x
                     | None => Raise IndexError
                     end) ids.

(** The dot product of a matrix row with a vector, by its true value.
    [np.dot] rounds it; the statements about hash keys hold for any value a
    projection may take, as long as the same row and vector give the same
    one. *)
Definition dot (u v : vector) : Q :=
  foldr Qplus 0%Q (zip_with Qmult u v).

(** [np.dot(m, v)] for [m] of shape (H, D) and [v] of shape (D',). *)
Definition np_dot (m : ndarray) (v : vector) : result (list Q) :=
  if decide (ncols m = length v)
  then Ok (map (fun r => dot r v) (rows m))
  else Raise ValueError.

(** [a - q] for [a] of shape (n, D) and [q] of shape (D',), with NumPy's
    broadcasting: the trailing dimensions must agree or one of them be 1. *)
Definition sub_broadcast (ar : arithmetic) (d : nat) (a : list vector)
    (q : vector) : result (list vector) :=
  if decide (d = length q) then Ok (map (fun r => zip_with (fl_sub ar) r q) a)
  else if decide (length q = 1%nat)
       then Ok (map (fun r => map (fun x => fl_sub ar x (hd 0%Q q)) r) a)
  else if decide (d = 1%nat)
       then Ok (map (fun r => map (fun y => fl_sub ar (hd 0%Q r) y) q) a)
  else Raise ValueError.

(** The square of the true Euclidean norm of one row. *)
Definition norm_sq (v : vector) : Q :=
  foldr Qplus 0%Q (map (fun x => Qmult x x) v).

(** True squared Euclidean distance between two vectors of one length. *)
Definition dist_sq (u q : vector) : Q := norm_sq (zip_with Qminus u q).

(** Arithmetic without rounding; the norm is given by its square, which
    orders rows as the norm does. *)
Definition exact_squares : arithmetic := mk_arithmetic Qminus norm_sq.

(** [list(s)] for a set of ids. *)
Definition list_of_set (s : gset nat) : list nat :=
  merge_sort Nat.le (elements s).

(** [np.argsort]: positions ordered by ascending key. Ties keep their
    original order here; NumPy leaves the order of ties open, and no
    statement below depends on it. *)
Fixpoint insert_key (x : Q * nat) (l : list (Q * nat)) : list (Q * nat) :=
  match l with
  | [] => [x]
  | y :: l' => if Qle_bool (fst x) (fst y) then x :: l else y :: insert_key x l'
  end.

Definition sort_keys (l : list (Q * nat)) : list (Q * nat) :=
  foldr insert_key [] l.

Definition argsort (ds : list Q) : list nat :=
  map snd (sort_keys (zip ds (seq 0 (length ds)))).

(** [np.array(rs)] for a list [rs] of one-dimensional rows. Rows of one
    length make a two-dimensional array. For rows of different lengths NumPy
    before 1.24 builds an array of row objects (with a deprecation warning)
    and NumPy from 1.24 on raises [ValueError]; [ragged_ok] says which NumPy
    is at hand. *)
Definition same_lengths {A} (rs : list (list A)) : bool :=
  match rs with
  | [] => true
  | r :: rs' => forallb (fun r' => (length r' =? length r)%nat) rs'
  end.

Definition np_array {A} (ragged_ok : bool) (rs : list (list A))
  : result (list (list A)) :=
  if ragged_ok || same_lengths rs then Ok rs else Raise ValueError.

Definition key_le (x y : Q * nat) : Prop := (fst x <= fst y)%Q.

(** Position [i] ranks no later than position [j] in the key list [ds]. *)
Definition rank_le (ds : list Q) (i j : nat) : Prop :=
  exists a b, ds !! i = Some a /\ ds !! j = Some b /\ (a <= b)%Q.

(** ** [hash_vector] *)

Definition signature := list Z.

Definition positive_bit (x : Q) : Z :=
  if Qle_bool x 0%Q then 0 else 1.    (* (x > 0).astype(int) *)

Definition hash_vector (v : vector) (hash_function : ndarray)
  : result signature :=
  projection ← np_dot hash_function v;
  Ok (map positive_bit projection).

(** ** [custom_indexing_algorithm] *)

Abbreviation hash_table :=
  (@gmap signature (@list_eq_dec Z Z.eq_dec)
         (@list_countable Z Z.eq_dec Z_countable) (list nat)).

(** The three lines
      [if hash_key not in t: t[hash_key] = []]
      [t[hash_key].append(i)]. *)
Definition bucket_append (hash_key : signature) (i : nat) (t : hash_table)
  : hash_table :=
  let t' := match t !! hash_key with
            | None => <[hash_key := []]> t
            | Some _ => t
            end in
  alter (fun b => b ++ [i]) hash_key t'.

Definition index_one_hash (i : nat) (v : vector)
    (hash_tables : list hash_table) (jh : nat * ndarray)
  : result (list hash_table) :=
  hash_key ← hash_vector v (snd jh);
  match hash_tables !! fst jh with
  | None => Raise IndexError
  | Some t => Ok (<[fst jh := bucket_append hash_key i t]> hash_tables)
  end.

Definition index_one_vector (hash_functions : list ndarray)
    (hash_tables : list hash_table) (iv : nat * vector)
  : result (list hash_table) :=
  for_fold (index_one_hash (fst iv) (snd iv)) (enumerate hash_functions)
           hash_tables.

Definition custom_indexing_algorithm (index_vectors : ndarray)
    (hash_functions : list ndarray) : result (list hash_table) :=
  for_fold (index_one_vector hash_functions)
           (enumerate (rows index_vectors))
           (map (fun _ => (∅ : hash_table)) hash_functions).

(** ** [custom_index_search] *)

Definition max_candidates_of (index_vectors : ndarray) : nat :=
  if (ncols index_vectors <? 150)%nat then 1000%nat else 1400%nat.

(** One turn of the loop over [zip(hash_functions, hash_tables)]. *)
Definition probe (query_vec : vector) (max_candidates : nat)
    (candidate_indices : gset nat) (ht : ndarray * hash_table)
  : result (gset nat) :=
  hash_key ← hash_vector query_vec (fst ht);
  match snd ht !! hash_key with
  | Some candidates =>
      Ok (candidate_indices ∪ list_to_set (take max_candidates candidates))
  | None => Ok candidate_indices
  end.

Definition gather_candidates (query_vec : vector) (max_candidates : nat)
    (hash_functions : list ndarray) (hash_tables : list hash_table)
  : result (gset nat) :=
  for_fold (probe query_vec max_candidates)
           (zip hash_functions hash_tables) ∅.

(** The re-ranking of one query's candidates, after [list(candidate_indices)]. *)
Definition rerank (ar : arithmetic) (index_vectors : ndarray)
    (query_vec : vector) (k : Z) (candidate_indices : list nat)
  : result (list nat) :=
  candidate_vectors ← fancy_index (rows index_vectors) candidate_indices;
  diffs ← sub_broadcast ar (ncols index_vectors) candidate_vectors query_vec;
  fancy_index candidate_indices
              (slice_to k (argsort (map (fl_norm ar) diffs))).

Definition search_one (ar : arithmetic) (index_vectors : ndarray)
    (hash_functions : list ndarray) (hash_tables : list hash_table) (k : Z)
    (query_vec : vector) : result (list nat) :=
  candidate_indices ←
    gather_candidates query_vec (max_candidates_of index_vectors)
                      hash_functions hash_tables;
  if decide (candidate_indices = ∅) then Ok []
  else rerank ar index_vectors query_vec k (list_of_set candidate_indices).

(** The list [result_indices] when the loop over the queries ends. *)
Definition result_rows (ar : arithmetic) (query_vectors index_vectors : ndarray)
    (hash_functions : list ndarray) (hash_tables : list hash_table) (k : Z)
  : result (list (list nat)) :=
  for_each (search_one ar index_vectors hash_functions hash_tables k)
           (rows query_vectors).

Definition custom_index_search (ar : arithmetic) (ragged_ok : bool)
    (query_vectors index_vectors : ndarray)
    (hash_functions : list ndarray) (hash_tables : list hash_table) (k : Z)
  : result (list (list nat)) :=
  result_indices ←
    result_rows ar query_vectors index_vectors hash_functions hash_tables k;
  np_array ragged_ok result_indices.

(** ** [semi_optimized_exhaustive_search] *)

Definition exhaustive_one (ar : arithmetic) (index_vectors : ndarray) (k : Z)
    (query_vec : vector) : result (list nat) :=
  diffs ← sub_broadcast ar (ncols index_vectors) (rows index_vectors) query_vec;
  Ok (slice_to k (argsort (map (fl_norm ar) diffs))).

Definition semi_optimized_exhaustive_search (ar : arithmetic)
    (ragged_ok : bool) (index_vectors query_vectors : ndarray) (k : Z)
  : result (list (list nat)) :=
  ann_lists ← for_each (exhaustive_one ar index_vectors k) (rows query_vectors);
  np_array ragged_ok ann_lists.

(** ** [compute_recall_at_k] *)

(** Python's [a / b] on numbers. *)
Definition true_div (a : Q) (b : Z) : result Q :=
  if b =? 0 then Raise ZeroDivisionError else Ok (Qdiv a (inject_Z b)).

(** [round(x, 3)]: the nearest multiple of 1/1000, a tie going to the even
    one. The code rounds the double that holds the mean, which can lie on
    either side of a tie of the true mean ([round(0.1 / 8, 3)] is 0.013): the
    statements about the score do not say where a tie goes. *)
Definition round_half_even (y : Q) : Z :=
  let f := Qfloor y in
  match Qcompare (Qminus y (inject_Z f)) (1 # 2)%Q with
  | Lt => f
  | Gt => f + 1
  | Eq => if Z.even f then f else f + 1
  end.

Definition round3 (x : Q) : Q :=
  Qmake (round_half_even (Qmult x (inject_Z 1000))) 1000.

(** [len(set(a) & set(b))]. *)
Definition overlap (a b : list nat) : nat :=
  size ((list_to_set a : gset nat) ∩ list_to_set b).

(** The element computed for position [i] of the comprehension. *)
Definition recall_term (nn_gt ann : list (list nat)) (k : Z) (i : nat)
  : result Q :=
  match ann !! i with
  | None => Raise IndexError
  | Some a =>
      match nn_gt !! i with
      | None => Raise IndexError
      | Some g => true_div (inject_Z (Z.of_nat (overlap a g))) k
      end
  end.

Definition compute_recall_at_k (nn_gt ann : list (list nat)) (k : Z)
  : result Q :=
  terms ← for_each (recall_term nn_gt ann k) (seq 0 (length ann));
  mean ← true_div (foldl Qplus 0%Q terms) (Z.of_nat (length ann));
  Ok (round3 mean).

(** ** Vocabulary of the statements *)

(** The distance from the row [u] to the query [q] as the code computes it:
    the norm of the difference, both rounded. *)
Definition computed_distance (ar : arithmetic) (u q : vector) : Q :=
  fl_norm ar (zip_with (fl_sub ar) u q).

(** Index id [i] is, by the computed distances, at most as far from the
    query [q] as index id [j]; both ids denote rows of [index_vectors]. *)
Definition computed_closer (ar : arithmetic) (index_vectors : ndarray)
    (q : vector) (i j : nat) : Prop :=
  exists u v, rows index_vectors !! i = Some u /\
              rows index_vectors !! j = Some v /\
              (computed_distance ar u q <= computed_distance ar v q)%Q.

(** Index id [i] is at most as far from the query [q] as index id [j] in
    true Euclidean distance; both ids denote rows of [index_vectors].
    Distances are compared through their squares. *)
Definition closer (index_vectors : ndarray) (q : vector) (i j : nat) : Prop :=
  exists u v, rows index_vectors !! i = Some u /\
              rows index_vectors !! j = Some v /\
              (dist_sq u q <= dist_sq v q)%Q.

(** Every id stored in a hash table denotes one of the [N] index vectors. *)
Definition ids_in_range (N : nat) (t : hash_table) : Prop :=
  forall key b, t !! key = Some b -> Forall (fun i => i < N)%nat b.

(** Id [i] is among the first [C] ids of a bucket that one of the query's
    signatures selects. *)
Definition gathered_from (q : vector) (C : nat) (hash_functions : list ndarray)
    (hash_tables : list hash_table) (i : nat) : Prop :=
  exists j hf t key b,
    hash_functions !! j = Some hf /\ hash_tables !! j = Some t /\
    hash_vector q hf = Ok key /\ t !! key = Some b /\ i ∈ take C b.

(** The signature of [v] under [hf] when the shapes agree: what
    [hash_vector] returns then. *)
Definition signature_of (hf : ndarray) (v : vector) : signature :=
  map positive_bit (map (fun r => dot r v) (rows hf)).

(** The state of one hash table after the build loop has seen the numbered
    vectors [ivs]. *)
Definition table_after (hf : ndarray) (t : hash_table)
    (ivs : list (nat * vector)) : hash_table :=
  foldl (fun t iv => bucket_append (signature_of hf (snd iv)) (fst iv) t) t ivs.

(** The ids, in order, of the numbered vectors whose signature is [key]. *)
Definition ids_with (hf : ndarray) (key : signature)
    (ivs : list (nat * vector)) : list nat :=
  map fst (filter (fun iv => signature_of hf (snd iv) = key) ivs).

(** ** Recall, in the words of the specification *)

(** The number of ids common to [approx] and [truth], each id counted once. *)
Definition common_ids (approx truth : list nat) : nat :=
  length (filter (fun x => x ∈ truth) (remove_dups approx)).

Definition recall_i (approx truth : list nat) (k : Z) : Q :=
  Qdiv (inject_Z (Z.of_nat (common_ids approx truth))) (inject_Z k).

Definition mean (xs : list Q) : Q :=
  Qdiv (foldr Qplus 0%Q xs) (inject_Z (Z.of_nat (length xs))).

(** Mean of the per-query recalls, rounded to three decimals. *)
Definition recall_spec (truth approx : list (list nat)) (k : Z) : Q :=
  round3 (mean (zip_with (fun a g => recall_i a g k) approx truth)).

(** ** Sample data used to exercise the definitions

    The entry 1/10 stands for the literal [0.1]; [binary64] rounds it to the
    float64 that the literal denotes before it computes with it. *)

Definition sample_state : RandomState :=
  mk_RandomState
    (fun n => match (n mod 3)%nat with
              | O => (1 # 1)%Q
              | S O => (-2 # 1)%Q
              | _ => (1 # 2)%Q
              end) 0.

Definition sample_index : ndarray :=
  mk_ndarray 2 [[0 # 1; 0 # 1]; [10 # 1; 10 # 1]; [1 # 10; 1 # 10]]%Q.

Definition sample_queries : ndarray :=
  mk_ndarray 2 [[0 # 1; 0 # 1]; [-1 # 1; -2 # 1]]%Q.

Definition sample_family : list ndarray :=
  [mk_ndarray 2 [[1 # 1; -2 # 1]]%Q; mk_ndarray 2 [[-2 # 1; 1 # 2]]%Q].

Definition sample_tables : list hash_table :=
  match custom_indexing_algorithm sample_index sample_family with
  | Ok tables => tables
  | Raise _ => []
  end.

(** A collection shorter than the one [sample_tables] was built from. *)
Definition short_index : ndarray := mk_ndarray 2 [[0 # 1; 0 # 1]]%Q.

(** Two index vectors that float64 puts in the wrong order of distance to
    the origin, and one hash function under which they share a bucket with
    the origin. With e = 2^-28 the rows are (1 + 2e, 1 + 4e) and
    (1 + 3e, 1 + 3e), of squared norms 2 + 12e + 20e^2 and 2 + 12e + 18e^2:
    the second row is the nearer one. The computed norms are
    0x1.6a09e6abd597fp+0 for the first row and 0x1.6a09e6abd5980p+0 for the
    second. *)
Definition close_index : ndarray :=
  mk_ndarray 2 [[268435458 # 268435456; 268435460 # 268435456];
                [268435459 # 268435456; 268435459 # 268435456]]%Q.

Definition origin_query : ndarray := mk_ndarray 2 [[0 # 1; 0 # 1]]%Q.



(** * Properties *)

(** ** Results and loops *)

(** Run the [bind]s whose first computation is already a value. *)
Ltac bind_step := cbn [mbind result_bind].

Lemma bind_Ok_inv {A B} (r : result A) (f : A -> result B) b :
  (r ≫= f) = Ok b -> exists a, r = Ok a /\ f a = Ok b.
Proof. destruct r as [a|e]; simpl; [eauto | discriminate]. Qed.

Lemma for_each_Ok {A B} (f : A -> result B) (g : A -> B) l :
  Forall (fun x => f x = Ok (g x)) l -> for_each f l = Ok (map g l).
Proof.
  induction 1 as [|x l Hx _ IH]; simpl; [done|].
  rewrite Hx. simpl. rewrite IH. done.
Qed.

Lemma for_each_Ok_inv {A B} (f : A -> result B) l ys :
  for_each f l = Ok ys -> Forall2 (fun x y => f x = Ok y) l ys.
Proof.
  revert ys. induction l as [|x l IH]; simpl; intros ys H.
  - injection H as <-. constructor.
  - apply bind_Ok_inv in H as (y & Hy & H).
    apply bind_Ok_inv in H as (ys' & Hys & H).
    injection H as <-. constructor; auto.
Qed.

(** ** The random generator *)

Lemma randn_family_shape n h d st :
  length (fst (randn_family n h d st)) = n /\
  Forall (fun m => nrows m = h /\ ncols m = d /\ well_shaped m)
         (fst (randn_family n h d st)).
Proof.
  revert st. induction n as [|n IH]; intros st; cbn [randn_family].
  - split; [done | constructor].
  - destruct (randn h d st) as [m st1] eqn:Hm.
    specialize (IH st1). destruct (randn_family n h d st1) as [ms st2].
    simpl in *. destruct IH as [IHl IHs]. split; [by f_equal|].
    constructor; [|done].
    unfold randn in Hm. injection Hm as <- _.
    unfold nrows, well_shaped; simpl. rewrite length_map, length_seq.
    repeat split. apply Forall_forall. intros r Hr.
    apply list_elem_of_In, in_map_iff in Hr as (i & <- & _).
    by rewrite length_map, length_seq.
Qed.

(** ** The integer part of a fractional power *)

Lemma root_search_spec fuel (below : bool) target q h :
  0 < q -> 0 <= h ->
  still_within below (h ^ q) target = true ->
  target < (h + Z.of_nat fuel + 1) ^ q ->
  let r := root_search fuel below target q h in
  h <= r /\
  still_within below (r ^ q) target = true /\
  still_within below ((r + 1) ^ q) target = false.
Proof.
  intros Hq. revert h. induction fuel as [|fuel IH]; intros h Hh Hlo Hhi; simpl.
  - replace (h + Z.of_nat 0 + 1) with (h + 1) in Hhi by lia.
    split; [lia|]. split; [done|].
    unfold still_within. destruct below; lia.
  - destruct (still_within below ((h + 1) ^ q) target) eqn:Hnext.
    + destruct (IH (h + 1)) as [? ?]; [lia | done | | split; [lia | done]].
      replace (h + 1 + Z.of_nat fuel + 1) with (h + Z.of_nat (S fuel) + 1)
        by lia. done.
    + split; [lia | done].
Qed.

Lemma floor_pow_above dim p q :
  0 < dim -> 0 < p <= q ->
  0 <= floor_pow false dim p q /\
  floor_pow false dim p q ^ q <= dim ^ p < (floor_pow false dim p q + 1) ^ q.
Proof.
  intros Hd Hpq. unfold floor_pow.
  destruct (root_search_spec (Z.to_nat dim) false (dim ^ p) q 0)
    as (H0 & Hlo & Hhi); [lia | lia | | |].
  - unfold still_within. rewrite Z.pow_0_l by lia.
    apply Z.leb_le, Z.pow_nonneg. lia.
  - rewrite Z2Nat.id by lia. simpl.
    apply Z.lt_le_trans with ((dim + 1) ^ p).
    + apply Z.pow_lt_mono_l; lia.
    + apply Z.pow_le_mono_r; lia.
  - unfold still_within in *. lia.
Qed.

Lemma floor_pow_below dim p q :
  0 < dim -> 0 < p <= q ->
  0 <= floor_pow true dim p q /\
  floor_pow true dim p q ^ q < dim ^ p <= (floor_pow true dim p q + 1) ^ q.
Proof.
  intros Hd Hpq. unfold floor_pow.
  destruct (root_search_spec (Z.to_nat dim) true (dim ^ p) q 0)
    as (H0 & Hlo & Hhi); [lia | lia | | |].
  - unfold still_within. rewrite Z.pow_0_l by lia.
    apply Z.ltb_lt, Z.pow_pos_nonneg; lia.
  - rewrite Z2Nat.id by lia. simpl.
    apply Z.lt_le_trans with ((dim + 1) ^ p).
    + apply Z.pow_lt_mono_l; lia.
    + apply Z.pow_le_mono_r; lia.
  - unfold still_within in *. lia.
Qed.

(** ** [generate_random_hash_functions] *)

Lemma generate_positive (D : Z) (st : RandomState) :
  0 < D ->
  generate_random_hash_functions D st =
  let H := if D <? 150 then floor_pow false D 13 20
           else floor_pow true D 3 5 in
  let r := randn_family (if D <? 150 then 7%nat else 12%nat)
                        (Z.to_nat H) (Z.to_nat D) st in
  (Ok (fst r), snd r).
Proof.
  intros HD. unfold generate_random_hash_functions, int_pow.
  destruct (Z.ltb_spec D 0) as [|_]; [lia|].
  destruct (Z.eqb_spec D 0) as [|_]; [lia|].
  destruct (D <? 150); cbv zeta;
    match goal with |- context [randn_family ?n ?h ?d ?s] =>
      destruct (randn_family n h d s) end; done.
Qed.

Lemma generate_100_rows fam st st' :
  generate_random_hash_functions 100 st = (Ok fam, st') ->
  length fam = 7%nat /\ Forall (fun m => nrows m = 19%nat) fam.
Proof.
  rewrite generate_positive by lia.
  change (100 <? 150) with true. cbv zeta.
  replace (floor_pow false 100 13 20) with 19 by (vm_compute; reflexivity).
  pose proof (randn_family_shape 7 19 (Z.to_nat 100) st) as [Hl Hf].
  change (Z.to_nat 19) with 19%nat.
  generalize dependent (randn_family 7 19 (Z.to_nat 100) st).
  intros r Hl Hf Heq. assert (fam = fst r) as -> by congruence.
  split; [done|]. eapply Forall_impl; [exact Hf|]. intros m (-> & _). done.
Qed.

(** C3 (as amended). For every positive dimensionality D the generator
    returns F matrices of shape (H, D). When D < 150, F = 7 and H is the
    integer part of D^0.65: H^20 <= D^13 < (H+1)^20. When D >= 150, F = 12
    and H is [int(D ** 0.6)]; for 150 <= D <= 1000000 that is the largest H
    with H^5 < D^3 (one less than D^(3/5) when that is a whole number). For
    D = 100 that is 7 matrices of 19 rows, for D = 200 it is 12 matrices of
    24 rows. *)
Theorem generate_random_hash_functions_shape (D : Z) (st : RandomState) :
  0 < D ->
  exists (fam : list ndarray) (st' : RandomState) (H : Z),
    generate_random_hash_functions D st = (Ok fam, st') /\
    length fam = (if D <? 150 then 7%nat else 12%nat) /\
    Forall (fun m => nrows m = Z.to_nat H /\ ncols m = Z.to_nat D /\
                     well_shaped m) fam /\
    0 <= H /\
    (D < 150 -> H ^ 20 <= D ^ 13 < (H + 1) ^ 20) /\
    (150 <= D <= 1000000 -> H ^ 5 < D ^ 3 <= (H + 1) ^ 5) /\
    (D = 100 -> H = 19) /\
    (D = 200 -> H = 24).
Proof.
  intros HD. rewrite generate_positive by done. cbv zeta.
  set (H := if D <? 150 then floor_pow false D 13 20
            else floor_pow true D 3 5).
  set (F := (if D <? 150 then 7%nat else 12%nat)).
  exists (fst (randn_family F (Z.to_nat H) (Z.to_nat D) st)),
         (snd (randn_family F (Z.to_nat H) (Z.to_nat D) st)), H.
  destruct (randn_family_shape F (Z.to_nat H) (Z.to_nat D) st) as [Hl Hf].
  split; [done|]. split; [done|]. split; [done|].
  subst H. destruct (Z.ltb_spec D 150) as [Hlt|Hge].
  - destruct (floor_pow_above D 13 20) as [H0 Hb]; [lia | lia |].
    repeat split; try lia. intros ->. vm_compute. reflexivity.
  - destruct (floor_pow_below D 3 5) as [H0 Hb]; [lia | lia |].
    repeat split; try lia. intros ->. vm_compute. reflexivity.
Qed.

Lemma generate_random_hash_functions_shape_witness :
  exists (fam : list ndarray) (st' : RandomState) (H : Z),
    generate_random_hash_functions 200 sample_state = (Ok fam, st') /\
    length fam = (if 200 <? 150 then 7%nat else 12%nat) /\
    Forall (fun m => nrows m = Z.to_nat H /\ ncols m = Z.to_nat 200 /\
                     well_shaped m) fam /\
    0 <= H /\
    (200 < 150 -> H ^ 20 <= 200 ^ 13 < (H + 1) ^ 20) /\
    (150 <= 200 <= 1000000 -> H ^ 5 < 200 ^ 3 <= (H + 1) ^ 5) /\
    (200 = 100 -> H = 19) /\
    (200 = 200 -> H = 24).
Proof. apply (generate_random_hash_functions_shape 200 sample_state). lia. Defined.

(** C3, as the specification words it, fails: at D = 100 the matrices do not
    have 21 rows. *)
Lemma generate_100_width_not_21 :
  ~ (exists (fam : list ndarray) (st' : RandomState),
       generate_random_hash_functions 100 sample_state = (Ok fam, st') /\
       length fam = 7%nat /\
       Forall (fun m => nrows m = 21%nat /\ ncols m = 100%nat) fam).
Proof.
  intros (fam & st' & Hgen & Hlen & Hall).
  apply generate_100_rows in Hgen as [_ H19].
  destruct fam as [|m fam]; [discriminate|].
  apply Forall_cons in Hall as [[H21 _] _].
  apply Forall_cons in H19 as [H19 _]. congruence.
Qed.

Lemma generate_243_rows fam st st' :
  generate_random_hash_functions 243 st = (Ok fam, st') ->
  length fam = 12%nat /\ Forall (fun m => nrows m = 26%nat) fam.
Proof.
  rewrite generate_positive by lia.
  change (243 <? 150) with false. cbv zeta.
  replace (floor_pow true 243 3 5) with 26 by (vm_compute; reflexivity).
  pose proof (randn_family_shape 12 26 (Z.to_nat 243) st) as [Hl Hf].
  change (Z.to_nat 26) with 26%nat.
  generalize dependent (randn_family 12 26 (Z.to_nat 243) st).
  intros r Hl Hf Heq. assert (fam = fst r) as -> by congruence.
  split; [done|]. eapply Forall_impl; [exact Hf|]. intros m (-> & _). done.
Qed.

(** C4 (as amended). For D = 0 the generator returns seven empty (0, 0)
    matrices and draws nothing; for D < 0 it raises [TypeError] and draws
    nothing. *)
Theorem generate_random_hash_functions_nonpositive (D : Z) (st : RandomState) :
  D <= 0 ->
  generate_random_hash_functions D st =
  if D =? 0 then (Ok (replicate 7 (mk_ndarray 0 [])), st)
  else (Raise TypeError, st).
Proof.
  intros HD. unfold generate_random_hash_functions, int_pow.
  destruct (Z.ltb_spec D 150) as [_|]; [|lia].
  destruct (Z.eqb_spec D 0) as [->|Hne].
  - simpl. destruct st as [nrm cur]. simpl. do 2 f_equal. lia.
  - destruct (Z.ltb_spec D 0) as [_|]; [done | lia].
Qed.

Lemma generate_random_hash_functions_nonpositive_witness :
  generate_random_hash_functions (-3) sample_state =
  if -3 =? 0 then (Ok (replicate 7 (mk_ndarray 0 [])), sample_state)
  else (Raise TypeError, sample_state).
Proof. apply (generate_random_hash_functions_nonpositive (-3)). lia. Defined.

(** C4, as the specification words it, fails: D = 0 yields a hash family. *)
Lemma generate_zero_returns_family :
  ~ (forall D st, D <= 0 ->
       is_ok (fst (generate_random_hash_functions D st)) = false).
Proof. intros H. specialize (H 0 sample_state ltac:(lia)). vm_compute in H. discriminate. Qed.

(** ** Sorting by key *)

Lemma insert_key_perm x l : insert_key x l ≡ₚ x :: l.
Proof.
  induction l as [|y l IH]; simpl; [done|].
  destruct (Qle_bool (fst x) (fst y)); [done|].
  rewrite IH. apply Permutation_swap.
Qed.

Lemma sort_keys_perm l : sort_keys l ≡ₚ l.
Proof.
  induction l as [|x l IH]; simpl; [done|].
  rewrite insert_key_perm. by rewrite IH.
Qed.

Lemma insert_key_sorted x l :
  StronglySorted key_le l -> StronglySorted key_le (insert_key x l).
Proof.
  induction 1 as [|y l Hs IH Hy]; simpl.
  - repeat constructor.
  - destruct (Qle_bool (fst x) (fst y)) eqn:Hxy.
    + apply Qle_bool_iff in Hxy.
      constructor; [by constructor|]. constructor; [done|].
      eapply Forall_impl; [exact Hy|]. intros z Hz.
      unfold key_le in *. eapply Qle_trans; eauto.
    + constructor; [done|].
      rewrite insert_key_perm. constructor; [|done].
      unfold key_le. apply Qlt_le_weak, Qnot_le_lt.
      intros Hle. apply Qle_bool_iff in Hle. congruence.
Qed.

Lemma sort_keys_sorted l : StronglySorted key_le (sort_keys l).
Proof.
  induction l as [|x l IH]; simpl; [constructor|].
  by apply insert_key_sorted.
Qed.

Lemma StronglySorted_with {A} (R : relation A) (P : A -> Prop) l :
  StronglySorted R l -> Forall P l ->
  StronglySorted (fun x y => P x /\ P y /\ R x y) l.
Proof.
  induction 1 as [|x l Hs IH Hx]; intros HP; [constructor|].
  apply Forall_cons in HP as [Px Pl]. constructor; [auto|].
  rewrite Forall_forall in *. auto.
Qed.

Lemma zip_seq_lookup (ds : list Q) (start : nat) x :
  x ∈ zip ds (seq start (length ds)) ->
  (start <= snd x)%nat /\ ds !! (snd x - start)%nat = Some (fst x).
Proof.
  revert start. induction ds as [|d ds IH]; intros start; simpl.
  - by intros ?%elem_of_nil.
  - intros [->|Hx]%elem_of_cons; simpl.
    + split; [lia|]. by rewrite Nat.sub_diag.
    + apply IH in Hx as [Hle Hlk]. split; [lia|].
      replace (snd x - start)%nat with (S (snd x - S start)) by lia. done.
Qed.

Lemma argsort_perm ds : argsort ds ≡ₚ seq 0 (length ds).
Proof.
  unfold argsort. rewrite sort_keys_perm.
  rewrite snd_zip; [done|]. by rewrite length_seq.
Qed.

Lemma argsort_length ds : length (argsort ds) = length ds.
Proof. by rewrite argsort_perm, length_seq. Qed.

Lemma argsort_bound ds : Forall (fun i => i < length ds)%nat (argsort ds).
Proof.
  rewrite argsort_perm. apply Forall_forall. intros i Hi.
  apply elem_of_seq in Hi. lia.
Qed.

Lemma argsort_sorted ds : StronglySorted (rank_le ds) (argsort ds).
Proof.
  unfold argsort.
  apply StronglySorted_fmap with
    (R1 := fun x y => ds !! snd x = Some (fst x) /\
                      ds !! snd y = Some (fst y) /\ key_le x y).
  - intros x y (Hx & Hy & Hxy). exists (fst x), (fst y). done.
  - apply StronglySorted_with; [apply sort_keys_sorted|].
    rewrite sort_keys_perm. apply Forall_forall. intros x Hx.
    apply zip_seq_lookup in Hx as [_ Hx].
    by rewrite Nat.sub_0_r in Hx.
Qed.


(** ** Slices and positional indexing *)

Lemma slice_to_nonneg {A} (k : Z) (l : list A) :
  0 <= k -> slice_to k l = take (Z.to_nat k) l.
Proof. intros Hk. unfold slice_to. destruct (Z.leb_spec 0 k); [done | lia]. Qed.

Lemma fancy_index_Ok {A} `{!Inhabited A} (a : list A) (ids : list nat) :
  Forall (fun i => i < length a)%nat ids ->
  fancy_index a ids = Ok (map (fun i => a !!! i) ids).
Proof.
  intros Hids. unfold fancy_index. apply for_each_Ok.
  eapply Forall_impl; [exact Hids|]. intros i Hi. simpl in Hi.
  by rewrite (list_lookup_lookup_total_lt a i Hi).
Qed.

Lemma pick_all {A} `{!Inhabited A} (l : list A) :
  map (fun i => l !!! i) (seq 0 (length l)) = l.
Proof.
  apply list_eq. intros i. change (map ?f ?l) with (f <$> l).
  rewrite list_lookup_fmap.
  destruct (decide (i < length l)%nat) as [Hi|Hi].
  - rewrite lookup_seq_lt by done. simpl.
    by rewrite (list_lookup_lookup_total_lt l i Hi).
  - rewrite lookup_seq_ge by lia. simpl. symmetry. apply lookup_ge_None. lia.
Qed.

Lemma StronglySorted_mono {A} (R1 R2 : relation A) l :
  (forall x y, R1 x y -> R2 x y) -> StronglySorted R1 l -> StronglySorted R2 l.
Proof.
  intros HR Hs. rewrite <- (list_fmap_id l).
  by apply (StronglySorted_fmap id R1 R2).
Qed.

Lemma StronglySorted_take {A} (R : relation A) n l :
  StronglySorted R l -> StronglySorted R (take n l).
Proof.
  intros Hs. rewrite <- (take_drop n l) in Hs.
  by apply StronglySorted_app_1_l in Hs.
Qed.

Lemma np_array_same_length {A} (ragged_ok : bool) (rs : list (list A)) n :
  Forall (fun r => length r = n) rs -> np_array ragged_ok rs = Ok rs.
Proof.
  intros Hrs. unfold np_array.
  replace (same_lengths rs) with true; [by rewrite orb_true_r|].
  symmetry. destruct Hrs as [|r rs Hr Hrs]; [done|]. simpl.
  apply forallb_forall. intros r' Hr'. apply Nat.eqb_eq.
  rewrite Forall_forall in Hrs. rewrite Hr. apply Hrs.
  by apply list_elem_of_In.
Qed.

Lemma np_array_Ok_inv {A} (ragged_ok : bool) (rs res : list (list A)) :
  np_array ragged_ok rs = Ok res -> res = rs.
Proof.
  unfold np_array. destruct (ragged_ok || same_lengths rs); congruence.
Qed.

(** ** [semi_optimized_exhaustive_search] *)

Lemma sub_broadcast_same (ar : arithmetic) d a q :
  d = length q ->
  sub_broadcast ar d a q = Ok (map (fun r => zip_with (fl_sub ar) r q) a).
Proof. intros ->. unfold sub_broadcast. by rewrite decide_True. Qed.

Lemma exhaustive_one_eq (ar : arithmetic) iv k q :
  ncols iv = length q ->
  exhaustive_one ar iv k q =
  Ok (slice_to k (argsort (map (fun u => computed_distance ar u q) (rows iv)))).
Proof.
  intros Hq. unfold exhaustive_one. rewrite sub_broadcast_same by done.
  simpl. by rewrite map_map.
Qed.

Lemma rank_le_computed_closer (ar : arithmetic) iv q i j :
  rank_le (map (fun u => computed_distance ar u q) (rows iv)) i j ->
  computed_closer ar iv q i j.
Proof.
  intros (a & b & Ha & Hb & Hab).
  change (map ?f ?l) with (f <$> l) in Ha, Hb.
  apply list_lookup_fmap_Some in Ha as (u & -> & Hu).
  apply list_lookup_fmap_Some in Hb as (v & -> & Hv).
  by exists u, v.
Qed.

(** C2 (as amended). For N index vectors, queries of the same dimension and
    k >= 1, the exhaustive search returns, for each query, exactly min(k, N)
    distinct index ids in non-decreasing order of the distance to the query
    that the code computes in floating point. *)
Theorem exhaustive_search_sorted_topk (ar : arithmetic) (ragged_ok : bool)
    (iv qs : ndarray)
    (k : Z) :
  1 <= k -> ncols qs = ncols iv -> well_shaped qs ->
  exists res,
    semi_optimized_exhaustive_search ar ragged_ok iv qs k = Ok res /\
    Forall2 (fun q r =>
               length r = Nat.min (Z.to_nat k) (nrows iv) /\
               NoDup r /\
               StronglySorted (computed_closer ar iv q) r)
            (rows qs) res.
Proof.
  intros Hk Hcols Hqs.
  set (g := fun q => take (Z.to_nat k)
                       (argsort (map (fun u => computed_distance ar u q) (rows iv)))).
  exists (map g (rows qs)). split.
  - unfold semi_optimized_exhaustive_search.
    rewrite (for_each_Ok _ g).
    + bind_step.
      apply np_array_same_length with (Nat.min (Z.to_nat k) (nrows iv)).
      apply Forall_forall. intros r Hr.
      apply list_elem_of_In, in_map_iff in Hr as (q & <- & _). unfold g.
      by rewrite length_take, argsort_length, length_map.
    + eapply Forall_impl; [exact Hqs|].
      intros q Hq. simpl in Hq. rewrite exhaustive_one_eq by congruence.
      by rewrite slice_to_nonneg by lia.
  - apply Forall2_fmap_r, Forall_Forall2_diag, Forall_forall.
    intros q _. unfold g. repeat split.
    + rewrite length_take, argsort_length, length_map. done.
    + eapply sublist_NoDup; [|apply sublist_take].
      rewrite argsort_perm. apply NoDup_seq.
    + apply StronglySorted_take.
      eapply StronglySorted_mono; [|apply argsort_sorted].
      intros i j. apply rank_le_computed_closer.
Qed.

(** ** Recall of one query *)

Lemma true_div_Ok a k : k <> 0 -> true_div a k = Ok (Qdiv a (inject_Z k)).
Proof. intros Hk. unfold true_div. by destruct (Z.eqb_spec k 0). Qed.

Lemma overlap_nil_l g : overlap [] g = 0%nat.
Proof.
  unfold overlap. simpl.
  rewrite (left_absorb_L ∅ (∩)).
  apply size_empty.
Qed.

Lemma recall_term_empty nn_gt ann g k m :
  ann !! m = Some [] -> nn_gt !! m = Some g -> k <> 0 ->
  exists x, recall_term nn_gt ann k m = Ok x /\ (x == 0)%Q.
Proof.
  intros Ha Hg Hk. unfold recall_term. rewrite Ha, Hg, overlap_nil_l.
  rewrite true_div_Ok by done. eexists. split; [done|].
  unfold Qdiv. simpl. apply Qmult_0_l.
Qed.

(** ** [custom_index_search]: gathering *)

Lemma hash_vector_Ok v hf :
  ncols hf = length v ->
  hash_vector v hf = Ok (map positive_bit (map (fun r => dot r v) (rows hf))).
Proof. intros H. unfold hash_vector, np_dot. by rewrite decide_True. Qed.

Lemma probe_Ok (q : vector) (C : nat) (acc : gset nat) (hf : ndarray)
    (t : hash_table) (key : signature) :
  hash_vector q hf = Ok key ->
  probe q C acc (hf, t) =
  Ok (match t !! key with
      | Some b => acc ∪ list_to_set (take C b)
      | None => acc
      end).
Proof.
  intros Hkey. unfold probe. cbn [fst snd]. rewrite Hkey.
  bind_step. by destruct (t !! key).
Qed.

Lemma gather_loop_spec q C hfs tables acc :
  Forall (fun hf => ncols hf = length q) hfs ->
  exists cands,
    for_fold (probe q C) (zip hfs tables) acc = Ok cands /\
    forall i, i ∈ cands <-> i ∈ acc \/ gathered_from q C hfs tables i.
Proof.
  intros Hhfs. revert tables acc.
  induction Hhfs as [|hf hfs Hhf _ IH]; intros tables acc.
  - exists acc. split; [done|]. intros i. split; [auto|].
    intros [?|(j & hf & ? & ? & ? & Hj & _)]; [done|].
    by rewrite lookup_nil in Hj.
  - destruct tables as [|t tables].
    { exists acc. split; [done|]. intros i. split; [auto|].
      intros [?|(j & ? & t & ? & ? & _ & Hj & _)]; [done|].
      by rewrite lookup_nil in Hj. }
    set (key := map positive_bit (map (fun r => dot r q) (rows hf)) : signature).
    assert (hash_vector q hf = Ok key) as Hkey by by apply hash_vector_Ok.
    change (zip (hf :: hfs) (t :: tables)) with ((hf, t) :: zip hfs tables).
    cbn [for_fold]. rewrite (probe_Ok q C acc hf t key Hkey).
    bind_step.
    destruct (t !! key) as [b|] eqn:Hb.
    + destruct (IH tables (acc ∪ list_to_set (take C b)))
        as (cands & Hrun & Hmem).
      exists cands. split; [done|]. intros i. rewrite Hmem.
      rewrite elem_of_union, elem_of_list_to_set. split.
      * intros [[?|Hi]|(j & hf' & t' & key' & b' & ? & ? & ?)]; [by left | |].
        -- right. by exists 0%nat, hf, t, key, b.
        -- right. by exists (S j), hf', t', key', b'.
      * intros [?|(j & hf' & t' & key' & b' & Hj1 & Hj2 & Hk' & Hb' & Hi)];
          [by left; left|].
        destruct j as [|j]; simpl in Hj1, Hj2.
        -- injection Hj1 as <-. injection Hj2 as <-.
           rewrite Hkey in Hk'. injection Hk' as <-.
           rewrite Hb in Hb'. injection Hb' as <-. by left; right.
        -- right. by exists j, hf', t', key', b'.
    + destruct (IH tables acc) as (cands & Hrun & Hmem).
      exists cands. split; [done|]. intros i. rewrite Hmem. split.
      * intros [?|(j & hf' & t' & key' & b' & ? & ? & ?)]; [by left|].
        right. by exists (S j), hf', t', key', b'.
      * intros [?|(j & hf' & t' & key' & b' & Hj1 & Hj2 & Hk' & Hb' & Hi)];
          [by left|].
        destruct j as [|j]; simpl in Hj1, Hj2.
        -- injection Hj1 as <-. injection Hj2 as <-.
           rewrite Hkey in Hk'. injection Hk' as <-. congruence.
        -- right. by exists j, hf', t', key', b'.
Qed.

Lemma gather_candidates_spec q C hfs tables :
  Forall (fun hf => ncols hf = length q) hfs ->
  exists cands,
    gather_candidates q C hfs tables = Ok cands /\
    forall i, i ∈ cands <-> gathered_from q C hfs tables i.
Proof.
  intros Hhfs.
  destruct (gather_loop_spec q C hfs tables ∅ Hhfs) as (cands & Hrun & Hmem).
  exists cands. split; [done|]. intros i. rewrite Hmem. split; [|by right].
  intros [Hi|Hi]; [|done]. by apply not_elem_of_empty in Hi.
Qed.

(** No bucket key equal to one of the query's signatures: nothing is
    gathered. *)
Lemma no_match_no_candidates q C hfs tables :
  Forall (fun hf => ncols hf = length q) hfs ->
  (forall j hf (t : hash_table) key,
     hfs !! j = Some hf -> tables !! j = Some t ->
     hash_vector q hf = Ok key -> t !! key = None) ->
  gather_candidates q C hfs tables = Ok ∅.
Proof.
  intros Hhfs Hmiss.
  destruct (gather_candidates_spec q C hfs tables Hhfs) as (cands & Hrun & Hmem).
  rewrite Hrun. f_equal. apply elem_of_equiv_empty_L. intros i Hi.
  apply Hmem in Hi as (j & hf & t & key & b & Hj & Ht & Hkey & Hb & _).
  rewrite (Hmiss j hf t key Hj Ht Hkey) in Hb. discriminate.
Qed.

Lemma gathered_in_range q C hfs tables N i :
  Forall (ids_in_range N) tables ->
  gathered_from q C hfs tables i -> (i < N)%nat.
Proof.
  intros Htabs (j & hf & t & key & b & _ & Ht & _ & Hb & Hi).
  rewrite Forall_forall in Htabs.
  assert (ids_in_range N t) as Hr.
  { apply Htabs. by eapply list_elem_of_lookup_2. }
  specialize (Hr key b Hb). rewrite Forall_forall in Hr.
  apply Hr. by eapply subseteq_take.
Qed.

(** ** [custom_index_search]: re-ranking *)

Lemma rerank_spec (ar : arithmetic) iv q k (cands : list nat) :
  ncols iv = length q -> 0 <= k ->
  Forall (fun c => c < nrows iv)%nat cands ->
  exists s,
    s ≡ₚ cands /\ StronglySorted (computed_closer ar iv q) s /\
    rerank ar iv q k cands = Ok (take (Z.to_nat k) s).
Proof.
  intros Hq Hk Hin.
  set (dist_of := fun c : nat => computed_distance ar (rows iv !!! c) q).
  set (ds := map dist_of cands).
  exists (map (fun i => cands !!! i) (argsort ds)).
  assert (length ds = length cands) as Hlen by apply length_map.
  split; [|split].
  - rewrite argsort_perm, Hlen. by rewrite pick_all.
  - apply StronglySorted_fmap with (R1 := rank_le ds); [|apply argsort_sorted].
    intros i j (a & b & Ha & Hb & Hab). subst ds.
    change (map ?f ?l) with (f <$> l) in Ha, Hb.
    apply list_lookup_fmap_Some in Ha as (ci & -> & Hci).
    apply list_lookup_fmap_Some in Hb as (cj & -> & Hcj).
    rewrite (list_lookup_total_correct _ _ _ Hci).
    rewrite (list_lookup_total_correct _ _ _ Hcj).
    rewrite Forall_forall in Hin.
    exists (rows iv !!! ci), (rows iv !!! cj). repeat split; [| |done].
    + apply list_lookup_lookup_total_lt, Hin. by eapply list_elem_of_lookup_2.
    + apply list_lookup_lookup_total_lt, Hin. by eapply list_elem_of_lookup_2.
  - unfold rerank. rewrite fancy_index_Ok by done.
    bind_step. rewrite sub_broadcast_same by done.
    bind_step. rewrite !map_map. fold dist_of. fold ds.
    rewrite slice_to_nonneg by done.
    rewrite fancy_index_Ok.
    + change (map ?f ?l) with (f <$> l). by rewrite fmap_take.
    + eapply Forall_impl.
      * eapply Forall_forall. intros i Hi.
        apply (subseteq_take (Z.to_nat k)) in Hi.
        pose proof (argsort_bound ds) as Hb. rewrite Forall_forall in Hb.
        exact (Hb i Hi).
      * simpl. intros i Hi. lia.
Qed.

Lemma list_of_set_perm (s : gset nat) : list_of_set s ≡ₚ elements s.
Proof. unfold list_of_set. apply merge_sort_Permutation. Qed.

Lemma search_one_spec (ar : arithmetic) iv hfs tables k q :
  ncols iv = length q ->
  Forall (fun hf => ncols hf = length q) hfs ->
  Forall (ids_in_range (nrows iv)) tables ->
  0 <= k ->
  exists (cands : gset nat) (s : list nat),
    gather_candidates q (max_candidates_of iv) hfs tables = Ok cands /\
    (forall i, i ∈ cands <-> gathered_from q (max_candidates_of iv) hfs tables i) /\
    s ≡ₚ elements cands /\
    StronglySorted (computed_closer ar iv q) s /\
    search_one ar iv hfs tables k q = Ok (take (Z.to_nat k) s).
Proof.
  intros Hq Hhfs Htabs Hk.
  destruct (gather_candidates_spec q (max_candidates_of iv) hfs tables Hhfs)
    as (cands & Hrun & Hmem).
  assert (Forall (fun c => c < nrows iv)%nat (list_of_set cands)) as Hin.
  { apply Forall_forall. intros c Hc. rewrite list_of_set_perm in Hc.
    apply elem_of_elements, Hmem in Hc. by eapply gathered_in_range. }
  destruct (rerank_spec ar iv q k (list_of_set cands) Hq Hk Hin)
    as (s & Hs & Hsort & Hr).
  rewrite list_of_set_perm in Hs.
  exists cands, s. repeat split; [done | by apply Hmem | by apply Hmem | done | done |].
  unfold search_one. rewrite Hrun. bind_step.
  destruct (decide (cands = ∅)) as [->|Hne]; [|done].
  rewrite elements_empty in Hs. apply Permutation_nil_r in Hs as ->.
  by rewrite take_nil.
Qed.

Lemma result_rows_Ok (ar : arithmetic) qs iv hfs tables k :
  0 <= k -> ncols qs = ncols iv -> well_shaped qs ->
  Forall (fun hf => ncols hf = ncols iv) hfs ->
  Forall (ids_in_range (nrows iv)) tables ->
  exists res,
    result_rows ar qs iv hfs tables k = Ok res /\
    Forall2 (fun q r =>
      exists (cands : gset nat) (s : list nat),
        gather_candidates q (max_candidates_of iv) hfs tables = Ok cands /\
        (forall i, i ∈ cands <->
                   gathered_from q (max_candidates_of iv) hfs tables i) /\
        s ≡ₚ elements cands /\
        StronglySorted (computed_closer ar iv q) s /\
        r = take (Z.to_nat k) s)
      (rows qs) res.
Proof.
  intros Hk Hcols Hqs Hhfs Htabs. unfold result_rows.
  assert (Forall (fun q => exists r,
            search_one ar iv hfs tables k q = Ok r /\
            exists (cands : gset nat) (s : list nat),
              gather_candidates q (max_candidates_of iv) hfs tables = Ok cands /\
              (forall i, i ∈ cands <->
                         gathered_from q (max_candidates_of iv) hfs tables i) /\
              s ≡ₚ elements cands /\
              StronglySorted (computed_closer ar iv q) s /\
              r = take (Z.to_nat k) s) (rows qs)) as Hall.
  { eapply Forall_impl; [exact Hqs|]. intros q Hq. simpl in Hq.
    destruct (search_one_spec ar iv hfs tables k q) as (cands & s & H1 & H2 & H3 & H4 & H5);
      [congruence | | done | done |].
    - eapply Forall_impl; [exact Hhfs|]. simpl. intros hf Hhf. congruence.
    - exists (take (Z.to_nat k) s). split; [done|]. by exists cands, s. }
  clear Hqs. induction Hall as [|q l (r & Hr & Hspec) _ (res & Hres & HF)].
  - exists []. split; [done | constructor].
  - exists (r :: res). split; [|by constructor].
    cbn [for_each]. rewrite Hr. bind_step. rewrite Hres. done.
Qed.

Lemma topk_facts (ar : arithmetic) iv q (n : nat) (cands : gset nat)
    (s r : list nat) :
  s ≡ₚ elements cands -> StronglySorted (computed_closer ar iv q) s -> r = take n s ->
  length r = Nat.min n (size cands) /\
  (forall i, i ∈ r -> i ∈ cands) /\
  NoDup r /\
  StronglySorted (computed_closer ar iv q) r /\
  (forall i j, i ∈ r -> j ∈ cands -> j ∉ r -> computed_closer ar iv q i j) /\
  ((size cands <= n)%nat -> forall j, j ∈ cands -> j ∈ r).
Proof.
  intros Hperm Hsort ->.
  assert (length s = size cands) as Hlen by by rewrite Hperm.
  assert (NoDup s) as Hnd by (rewrite Hperm; apply NoDup_elements).
  repeat split.
  - by rewrite length_take, Hlen.
  - intros i Hi. apply elem_of_elements. rewrite <- Hperm.
    by eapply subseteq_take.
  - eapply sublist_NoDup; [exact Hnd | apply sublist_take].
  - by apply StronglySorted_take.
  - intros i j Hi Hj Hnj.
    apply elem_of_elements in Hj. rewrite <- Hperm in Hj.
    rewrite <- (take_drop n s) in Hj, Hsort.
    apply elem_of_app in Hj as [Hj|Hj]; [done|].
    by eapply StronglySorted_app_1_elem_of.
  - intros Hsz j Hj. rewrite take_ge by lia.
    rewrite Hperm. by apply elem_of_elements.
Qed.


(** C7. Every id returned for a query was gathered from a bucket selected by
    one of the query's signatures, within the first C ids of that bucket,
    where C = 1000 if D < 150 and C = 1400 otherwise; the candidate set is
    exactly the set of ids so gathered, and no returned row repeats an id. *)
Theorem candidate_search_sources (ar : arithmetic) (ragged_ok : bool)
    (qs iv : ndarray)
    (hfs : list ndarray) (tables : list hash_table) (k : Z) :
  0 <= k -> ncols qs = ncols iv -> well_shaped qs ->
  Forall (fun hf => ncols hf = ncols iv) hfs ->
  Forall (ids_in_range (nrows iv)) tables ->
  let C := if (ncols iv <? 150)%nat then 1000%nat else 1400%nat in
  exists res,
    result_rows ar qs iv hfs tables k = Ok res /\
    custom_index_search ar ragged_ok qs iv hfs tables k = np_array ragged_ok res /\
    Forall2 (fun q r =>
      (forall i, i ∈ r -> gathered_from q C hfs tables i) /\
      NoDup r /\
      exists cands : gset nat,
        gather_candidates q C hfs tables = Ok cands /\
        (forall i, i ∈ cands <-> gathered_from q C hfs tables i) /\
        NoDup (elements cands) /\
        (forall i, i ∈ r -> i ∈ elements cands))
      (rows qs) res.
Proof.
  intros Hk Hcols Hqs Hhfs Htabs C.
  destruct (result_rows_Ok ar qs iv hfs tables k) as (res & Hres & HF);
    try done.
  exists res. split; [done|].
  split; [unfold custom_index_search; by rewrite Hres|].
  eapply Forall2_impl; [exact HF|]. simpl.
  intros q r (cands & s & Hg & Hmem & Hperm & Hsort & Hr).
  destruct (topk_facts ar iv q (Z.to_nat k) cands s r Hperm Hsort Hr)
    as (_ & H2 & H3 & _).
  split; [|split; [done|]].
  - intros i Hi. apply Hmem. auto.
  - exists cands. repeat split; try done; try apply Hmem.
    + apply NoDup_elements.
    + intros i Hi. apply elem_of_elements. auto.
Qed.

(** A query whose candidate set is empty after probing every hash table
    gets the empty row from the loop body (nothing is scanned instead), and
    in the evaluation of a batch that is returned that row contributes a
    recall of zero. *)
Lemma empty_candidates_empty_row (ar : arithmetic) (iv : ndarray)
    (hfs : list ndarray)
    (tables : list hash_table) (k : Z) (q : vector) :
  gather_candidates q (max_candidates_of iv) hfs tables = Ok ∅ ->
  search_one ar iv hfs tables k q = Ok [] /\
  (forall ragged_ok qs res m,
     custom_index_search ar ragged_ok qs iv hfs tables k = Ok res ->
     rows qs !! m = Some q ->
     res !! m = Some [] /\
     forall nn_gt g k', nn_gt !! m = Some g -> k' <> 0 ->
       exists x, recall_term nn_gt res k' m = Ok x /\ (x == 0)%Q).
Proof.
  intros Hg.
  assert (search_one ar iv hfs tables k q = Ok []) as Hone.
  { unfold search_one. rewrite Hg. bind_step.
    by rewrite decide_True. }
  split; [done|]. intros ragged_ok qs res m Hres Hm.
  unfold custom_index_search in Hres.
  apply bind_Ok_inv in Hres as (rs & Hrs & Hres).
  apply np_array_Ok_inv in Hres. subst res.
  apply for_each_Ok_inv in Hrs.
  destruct (Forall2_lookup_l _ _ _ _ _ Hrs Hm) as (r & Hr & Hq).
  assert (r = []) as -> by congruence.
  split; [done|]. intros nn_gt g k' Hgt Hk'.
  by apply (recall_term_empty nn_gt rs g k' m).
Qed.

(** ** [compute_recall_at_k] *)

Lemma overlap_common (a g : list nat) : overlap a g = common_ids a g.
Proof.
  unfold overlap, common_ids.
  change (size ?X) with (length (elements X)).
  apply Permutation_length, NoDup_Permutation.
  - apply NoDup_elements.
  - apply NoDup_filter, NoDup_remove_dups.
  - intros x. rewrite elem_of_elements, elem_of_intersection.
    rewrite !elem_of_list_to_set, list_elem_of_filter, elem_of_remove_dups.
    tauto.
Qed.

Lemma for_each_app {A B} (f : A -> result B) l1 l2 :
  for_each f (l1 ++ l2) =
  (ys1 ← for_each f l1; ys2 ← for_each f l2; Ok (ys1 ++ ys2)).
Proof.
  induction l1 as [|x l1 IH]; simpl.
  - by destruct (for_each f l2).
  - destruct (f x) as [y|e]; simpl; [|done]. rewrite IH.
    destruct (for_each f l1) as [ys1|e]; simpl; [|done].
    by destruct (for_each f l2).
Qed.

Lemma recall_terms_prefix nn_gt ann k n :
  (n <= length ann)%nat -> (n <= length nn_gt)%nat -> k <> 0 ->
  for_each (recall_term nn_gt ann k) (seq 0 n) =
  Ok (map (fun i => recall_i (ann !!! i) (nn_gt !!! i) k) (seq 0 n)).
Proof.
  intros Ha Hg Hk. apply for_each_Ok.
  apply Forall_forall. intros i Hi. apply elem_of_seq in Hi.
  unfold recall_term.
  rewrite (list_lookup_lookup_total_lt ann i) by lia.
  rewrite (list_lookup_lookup_total_lt nn_gt i) by lia.
  rewrite true_div_Ok by done. by rewrite overlap_common.
Qed.

Lemma recall_terms_Ok nn_gt ann k :
  (length ann <= length nn_gt)%nat -> k <> 0 ->
  for_each (recall_term nn_gt ann k) (seq 0 (length ann)) =
  Ok (zip_with (fun a g => recall_i a g k) ann nn_gt).
Proof.
  intros Hlen Hk. rewrite recall_terms_prefix by done.
  f_equal. apply list_eq. intros i.
  change (map ?f ?l) with (f <$> l).
  rewrite list_lookup_fmap, lookup_zip_with.
  destruct (decide (i < length ann)%nat) as [Hi|Hi].
  - rewrite lookup_seq_lt by done. simpl.
    rewrite (list_lookup_lookup_total_lt ann i) by done.
    rewrite (list_lookup_lookup_total_lt nn_gt i) by lia. done.
  - rewrite lookup_seq_ge by lia.
    rewrite (lookup_ge_None_2 ann) by lia. done.
Qed.

Lemma recall_terms_short nn_gt ann k :
  (length nn_gt < length ann)%nat -> k <> 0 ->
  for_each (recall_term nn_gt ann k) (seq 0 (length ann)) = Raise IndexError.
Proof.
  intros Hlen Hk.
  replace (length ann) with (length nn_gt + S (length ann - S (length nn_gt)))%nat
    at 1 by lia.
  rewrite seq_app, for_each_app, recall_terms_prefix by (done || lia).
  cbn [mbind result_bind seq for_each Nat.add].
  assert (recall_term nn_gt ann k (length nn_gt) = Raise IndexError) as ->; [|done].
  unfold recall_term.
  rewrite (list_lookup_lookup_total_lt ann (length nn_gt)) by lia.
  by rewrite (lookup_ge_None_2 nn_gt) by lia.
Qed.

Lemma foldl_Qplus (a : Q) (l : list Q) :
  (foldl Qplus a l == a + foldr Qplus 0 l)%Q.
Proof.
  revert a. induction l as [|x l IH]; intros a; simpl.
  - lra.
  - rewrite IH. lra.
Qed.

Lemma round_half_even_proper x y :
  (x == y)%Q -> round_half_even x = round_half_even y.
Proof.
  intros Hxy. unfold round_half_even.
  rewrite (Qfloor_comp x y Hxy).
  assert (x - inject_Z (Qfloor y) == y - inject_Z (Qfloor y))%Q as Heq
    by (rewrite Hxy; reflexivity).
  by rewrite (Qcompare_comp _ _ Heq (1 # 2)%Q (1 # 2)%Q (Qeq_refl _)).
Qed.

Lemma round3_proper x y : (x == y)%Q -> round3 x = round3 y.
Proof.
  intros Hxy. unfold round3. f_equal.
  apply round_half_even_proper. by rewrite Hxy.
Qed.



Lemma compute_recall_Ok nn_gt ann k :
  ann <> [] -> (length ann <= length nn_gt)%nat -> k <> 0 ->
  compute_recall_at_k nn_gt ann k = Ok (recall_spec nn_gt ann k).
Proof.
  intros Hne Hlen Hk. unfold compute_recall_at_k.
  rewrite recall_terms_Ok by done. bind_step.
  rewrite true_div_Ok by (destruct ann; [done | simpl; lia]).
  bind_step. f_equal. unfold recall_spec, mean.
  apply round3_proper.
  rewrite length_zip_with, Nat.min_l by done.
  rewrite foldl_Qplus. apply Qdiv_comp; [lra | reflexivity].
Qed.

Lemma compute_recall_cases nn_gt ann k :
  compute_recall_at_k nn_gt ann k =
  if decide (ann = []) then Raise ZeroDivisionError
  else if k =? 0
       then Raise (match nn_gt with [] => IndexError | _ => ZeroDivisionError end)
  else if (length nn_gt <? length ann)%nat then Raise IndexError
  else Ok (recall_spec nn_gt ann k).
Proof.
  destruct (decide (ann = [])) as [->|Hne]; [done|].
  destruct (Z.eqb_spec k 0) as [->|Hk].
  - destruct ann as [|a ann]; [done|]. by destruct nn_gt.
  - destruct (Nat.ltb_spec (length nn_gt) (length ann)) as [Hlt|Hge].
    + unfold compute_recall_at_k. by rewrite recall_terms_short.
    + by apply compute_recall_Ok.
Qed.

(** ** [custom_indexing_algorithm] *)

Lemma index_hash_loop i v hfs :
  forall (done todo : list hash_table),
  Forall (fun hf => ncols hf = length v) hfs ->
  length todo = length hfs ->
  for_fold (index_one_hash i v) (zip (seq (length done) (length hfs)) hfs)
           (done ++ todo) =
  Ok (done ++ zip_with (fun hf t => bucket_append (signature_of hf v) i t)
                       hfs todo).
Proof.
  induction hfs as [|hf hfs IH]; intros done todo Hhfs Hlen.
  - destruct todo; [done | discriminate].
  - destruct todo as [|t todo]; [discriminate|].
    apply Forall_cons in Hhfs as [Hhf Hhfs].
    cbn [length seq zip zip_with for_fold].
    assert (index_one_hash i v (done ++ t :: todo) (length done, hf) =
            Ok ((done ++ [bucket_append (signature_of hf v) i t]) ++ todo)) as ->.
    { unfold index_one_hash. cbn [fst snd].
      rewrite (hash_vector_Ok v hf Hhf). bind_step.
      rewrite list_lookup_middle by done.
      rewrite insert_app_r_alt by lia. rewrite Nat.sub_diag. simpl.
      by rewrite <- app_assoc. }
    bind_step.
    replace (S (length done))
      with (length (done ++ [bucket_append (signature_of hf v) i t]))
      by (rewrite length_app; simpl; lia).
    rewrite IH by (done || (simpl in Hlen; lia)).
    by rewrite <- app_assoc.
Qed.

Lemma index_one_vector_Ok hfs (tables : list hash_table) i v :
  Forall (fun hf => ncols hf = length v) hfs ->
  length tables = length hfs ->
  index_one_vector hfs tables (i, v) =
  Ok (zip_with (fun hf t => bucket_append (signature_of hf v) i t) hfs tables).
Proof.
  intros Hhfs Hlen. unfold index_one_vector, enumerate. cbn [fst snd].
  exact (index_hash_loop i v hfs [] tables Hhfs Hlen).
Qed.

Lemma zip_with_zip_with_r {A B} (f g : A -> B -> B) (l : list A) (k : list B) :
  zip_with f l (zip_with g l k) = zip_with (fun a b => f a (g a b)) l k.
Proof.
  revert k. induction l as [|a l IH]; intros [|b k]; simpl; [done..|].
  by rewrite IH.
Qed.

Lemma index_vector_loop hfs (ivs : list (nat * vector)) :
  forall tables : list hash_table,
  Forall (fun iv => Forall (fun hf => ncols hf = length (snd iv)) hfs) ivs ->
  length tables = length hfs ->
  for_fold (index_one_vector hfs) ivs tables =
  Ok (zip_with (fun hf t => table_after hf t ivs) hfs tables).
Proof.
  induction ivs as [|[i v] ivs IH]; intros tables Hivs Hlen.
  - cbn [for_fold]. f_equal. unfold table_after. simpl.
    clear Hivs. revert tables Hlen.
    induction hfs as [|hf hfs IHh]; intros [|t tables] Hlen;
      simpl in *; try done. f_equal. apply IHh. lia.
  - apply Forall_cons in Hivs as [Hv Hivs]. cbn [for_fold].
    rewrite index_one_vector_Ok by done. bind_step.
    rewrite IH; [|done|by rewrite length_zip_with; lia].
    by rewrite zip_with_zip_with_r.
Qed.

Lemma custom_indexing_algorithm_Ok iv hfs :
  well_shaped iv -> Forall (fun hf => ncols hf = ncols iv) hfs ->
  custom_indexing_algorithm iv hfs =
  Ok (map (fun hf => table_after hf ∅ (enumerate (rows iv))) hfs).
Proof.
  intros Hiv Hhfs. unfold custom_indexing_algorithm.
  rewrite index_vector_loop.
  - f_equal. clear. induction hfs as [|hf hfs IH]; simpl; [done|].
    by rewrite IH.
  - apply Forall_forall. intros [i v] Hv. unfold enumerate in Hv.
    apply elem_of_zip_r in Hv. unfold well_shaped in Hiv.
    rewrite Forall_forall in Hiv. specialize (Hiv v Hv). simpl.
    eapply Forall_impl; [exact Hhfs|]. simpl. intros hf Hhf. congruence.
  - by rewrite length_map.
Qed.

Lemma bucket_append_lookup (key' : signature) (i : nat) (t : hash_table)
    (key : signature) :
  bucket_append key' i t !! key =
  if decide (key = key') then Some (default [] (t !! key) ++ [i])
  else t !! key.
Proof.
  unfold bucket_append. destruct (decide (key = key')) as [->|Hne].
  - rewrite lookup_alter_eq.
    destruct (t !! key') as [b|] eqn:Hb; [by rewrite Hb|].
    by rewrite lookup_insert_eq.
  - rewrite lookup_alter_ne by done.
    destruct (t !! key'); [done|]. by rewrite lookup_insert_ne.
Qed.

Lemma table_after_lookup hf (ivs : list (nat * vector)) :
  forall (t : hash_table) (key : signature),
  table_after hf t ivs !! key =
  match ids_with hf key ivs with
  | [] => t !! key
  | ids => Some (default [] (t !! key) ++ ids)
  end.
Proof.
  induction ivs as [|[i v] ivs IH]; intros t key; [done|].
  unfold table_after in *. cbn [foldl fst snd]. rewrite IH.
  rewrite bucket_append_lookup. unfold ids_with.
  destruct (decide (key = signature_of hf v)) as [->|Hne].
  - rewrite filter_cons_True by done. cbn [map fst].
    destruct (map fst _) as [|j ids]; cbn [default from_option id]; [done|].
    by rewrite <- app_assoc.
  - rewrite filter_cons_False by (simpl; congruence). done.
Qed.

Lemma elem_of_enumerate {A} (l : list A) (start i : nat) (x : A) :
  (i, x) ∈ zip (seq start (length l)) l <->
  (start <= i)%nat /\ l !! (i - start)%nat = Some x.
Proof.
  revert start. induction l as [|y l IH]; intros start; simpl.
  - rewrite elem_of_nil. split; [done | by intros [_ ?]].
  - rewrite elem_of_cons, IH. split.
    + intros [[= -> ->]|[Hle Hl]].
      * split; [lia|]. by rewrite Nat.sub_diag.
      * split; [lia|].
        by replace (i - start)%nat with (S (i - S start)) by lia.
    + intros [Hle Hl]. destruct (decide (i = start)) as [->|Hne].
      * left. rewrite Nat.sub_diag in Hl. simpl in Hl. congruence.
      * right. split; [lia|].
        by replace (i - start)%nat with (S (i - S start)) in Hl by lia.
Qed.

Lemma elem_of_ids_with hf key (l : list vector) (i : nat) :
  i ∈ ids_with hf key (enumerate l) <->
  exists v, l !! i = Some v /\ signature_of hf v = key.
Proof.
  unfold ids_with, enumerate. change (map ?f ?l) with (f <$> l).
  rewrite list_elem_of_fmap. split.
  - intros ([j v] & -> & Hjv). apply list_elem_of_filter in Hjv as [Hk Hjv].
    apply elem_of_enumerate in Hjv as [_ Hl].
    rewrite Nat.sub_0_r in Hl. by exists v.
  - intros (v & Hl & Hk). exists (i, v). split; [done|].
    apply list_elem_of_filter. split; [done|].
    apply elem_of_enumerate. split; [lia|]. by rewrite Nat.sub_0_r.
Qed.

Lemma StronglySorted_sublist {A} (R : relation A) l1 l2 :
  l1 `sublist_of` l2 -> StronglySorted R l2 -> StronglySorted R l1.
Proof.
  induction 1 as [|x l1 l2 Hsub IH|x l1 l2 Hsub IH]; intros Hs.
  - constructor.
  - apply StronglySorted_inv in Hs as [Hs Hx]. constructor; [auto|].
    rewrite Forall_forall in *. intros y Hy. apply Hx.
    by eapply elem_of_sublist.
  - apply StronglySorted_inv in Hs as [Hs _]. auto.
Qed.

Lemma StronglySorted_seq start n : StronglySorted lt (seq start n).
Proof.
  revert start. induction n as [|n IH]; intros start; simpl; constructor.
  - apply IH.
  - apply Forall_forall. intros j Hj. apply elem_of_seq in Hj. lia.
Qed.

Lemma ids_with_sorted hf key (l : list vector) :
  StronglySorted lt (ids_with hf key (enumerate l)).
Proof.
  apply StronglySorted_sublist with (seq 0 (length l));
    [|apply StronglySorted_seq].
  unfold ids_with, enumerate. change (map ?f ?l) with (f <$> l).
  rewrite <- (fst_zip (seq 0 (length l)) l) at 2 by (by rewrite length_seq).
  apply fmap_sublist, sublist_filter.
Qed.

Lemma built_table_lookup hf (l : list vector) (key : signature) (b : list nat) :
  table_after hf ∅ (enumerate l) !! key = Some b ->
  b = ids_with hf key (enumerate l) /\ b <> [].
Proof.
  rewrite table_after_lookup, lookup_empty.
  destruct (ids_with hf key (enumerate l)) as [|j ids]; [done|].
  cbn [default app]. intros [= <-]. done.
Qed.

Lemma built_table_ids_in_range hf (l : list vector) :
  ids_in_range (length l) (table_after hf ∅ (enumerate l)).
Proof.
  intros key b Hb. apply built_table_lookup in Hb as [-> _].
  apply Forall_forall. intros i Hi.
  apply elem_of_ids_with in Hi as (v & Hv & _).
  by eapply lookup_lt_Some.
Qed.

Lemma custom_indexing_ids_in_range iv hfs tables :
  well_shaped iv -> Forall (fun hf => ncols hf = ncols iv) hfs ->
  custom_indexing_algorithm iv hfs = Ok tables ->
  Forall (ids_in_range (nrows iv)) tables.
Proof.
  intros Hiv Hhfs. rewrite custom_indexing_algorithm_Ok by done.
  intros [= <-]. apply Forall_forall. intros t Ht.
  change (map ?f ?l) with (f <$> l) in Ht.
  apply list_elem_of_fmap in Ht as (hf & -> & _).
  apply built_table_ids_in_range.
Qed.

(** C9. The builder returns one hash table per hash function. In each
    table every index id 0..N-1 lies in exactly one bucket (and no other id
    lies in any), and every bucket lists its ids in strictly ascending
    order, which is the order in which the loop appended them. *)
Theorem custom_indexing_partition (iv : ndarray) (hfs : list ndarray) :
  well_shaped iv -> Forall (fun hf => ncols hf = ncols iv) hfs ->
  exists tables,
    custom_indexing_algorithm iv hfs = Ok tables /\
    length tables = length hfs /\
    Forall (fun t : hash_table =>
      (forall i, (i < nrows iv)%nat ->
         exists key b, t !! key = Some b /\ i ∈ b /\
           forall key' b', t !! key' = Some b' -> i ∈ b' -> key' = key) /\
      (forall key b, t !! key = Some b ->
         b <> [] /\ StronglySorted lt b /\
         Forall (fun i => i < nrows iv)%nat b))
      tables.
Proof.
  intros Hiv Hhfs. rewrite custom_indexing_algorithm_Ok by done.
  eexists. split; [done|]. split; [by rewrite length_map|].
  apply Forall_forall. intros t Ht.
  change (map ?f ?l) with (f <$> l) in Ht.
  apply list_elem_of_fmap in Ht as (hf & -> & _). split.
  - intros i Hi. unfold nrows in Hi.
    destruct (lookup_lt_is_Some_2 (rows iv) i Hi) as [v Hv].
    exists (signature_of hf v), (ids_with hf (signature_of hf v) (enumerate (rows iv))).
    assert (i ∈ ids_with hf (signature_of hf v) (enumerate (rows iv))) as Hin.
    { apply elem_of_ids_with. by exists v. }
    split; [|split; [done|]].
    + rewrite table_after_lookup, lookup_empty.
      destruct (ids_with hf (signature_of hf v) (enumerate (rows iv)));
        [by apply elem_of_nil in Hin | done].
    + intros key' b' Hb' Hi'. apply built_table_lookup in Hb' as [-> _].
      apply elem_of_ids_with in Hi' as (v' & Hv' & <-). congruence.
  - intros key b Hb. pose proof (built_table_ids_in_range hf (rows iv) key b Hb).
    apply built_table_lookup in Hb as [-> Hne].
    split; [done|]. split; [apply ids_with_sorted | done].
Qed.

Lemma sample_tables_built :
  custom_indexing_algorithm sample_index sample_family = Ok sample_tables.
Proof. vm_compute. reflexivity. Qed.

Lemma sample_tables_in_range :
  Forall (ids_in_range (nrows sample_index)) sample_tables.
Proof.
  apply (custom_indexing_ids_in_range sample_index sample_family).
  - repeat constructor.
  - repeat constructor.
  - apply sample_tables_built.
Qed.

(** Without rounding the computed order is the order of true distance. *)
Lemma computed_closer_exact (iv : ndarray) (q : vector) (i j : nat) :
  computed_closer exact_squares iv q i j <-> closer iv q i j.
Proof. reflexivity. Qed.

(** In [close_index] id 0 is farther from the origin than id 1. *)
Lemma close_index_order : ~ closer close_index [0 # 1; 0 # 1]%Q 0 1.
Proof.
  intros (u & v & Hu & Hv & Hle).
  injection Hu as <-. injection Hv as <-.
  vm_compute in Hle. by apply Hle.
Qed.

(** * The claims on sample inputs, and the remaining claims *)

Lemma exhaustive_search_sorted_topk_witness :
  exists res,
    semi_optimized_exhaustive_search binary64 false sample_index sample_queries 2 =
      Ok res /\
    Forall2 (fun q r =>
               length r = Nat.min (Z.to_nat 2) (nrows sample_index) /\
               NoDup r /\
               StronglySorted (computed_closer binary64 sample_index q) r)
            (rows sample_queries) res.
Proof.
  apply (exhaustive_search_sorted_topk binary64 false sample_index sample_queries 2).
  - lia.
  - reflexivity.
  - repeat constructor.
Defined.


Lemma candidate_search_sources_witness :
  exists res,
    result_rows binary64 sample_queries sample_index sample_family sample_tables 2 =
      Ok res /\
    custom_index_search binary64 true sample_queries sample_index sample_family
                        sample_tables 2 = np_array true res /\
    Forall2 (fun q r =>
      (forall i, i ∈ r ->
                 gathered_from q 1000 sample_family sample_tables i) /\
      NoDup r /\
      exists cands : gset nat,
        gather_candidates q 1000 sample_family sample_tables = Ok cands /\
        (forall i, i ∈ cands <->
                   gathered_from q 1000 sample_family sample_tables i) /\
        NoDup (elements cands) /\
        (forall i, i ∈ r -> i ∈ elements cands))
      (rows sample_queries) res.
Proof.
  apply (candidate_search_sources binary64 true sample_queries sample_index
                                  sample_family sample_tables 2).
  - lia.
  - reflexivity.
  - repeat constructor.
  - repeat constructor.
  - apply sample_tables_in_range.
Defined.

Lemma custom_indexing_partition_witness :
  exists tables,
    custom_indexing_algorithm sample_index sample_family = Ok tables /\
    length tables = length sample_family /\
    Forall (fun t : hash_table =>
      (forall i, (i < nrows sample_index)%nat ->
         exists key b, t !! key = Some b /\ i ∈ b /\
           forall key' b', t !! key' = Some b' -> i ∈ b' -> key' = key) /\
      (forall key b, t !! key = Some b ->
         b <> [] /\ StronglySorted lt b /\
         Forall (fun i => i < nrows sample_index)%nat b))
      tables.
Proof.
  apply (custom_indexing_partition sample_index sample_family).
  - repeat constructor.
  - repeat constructor.
Defined.

(** C2, as the specification words it, fails: on [close_index] and the
    origin as query the row is [0; 1], and id 1 is the nearer one. *)
Lemma exhaustive_search_not_by_true_distance :
  ~ (exists res,
       semi_optimized_exhaustive_search binary64 false close_index
                                        origin_query 2 = Ok res /\
       Forall2 (fun q r =>
                  length r = Nat.min (Z.to_nat 2) (nrows close_index) /\
                  NoDup r /\
                  StronglySorted (closer close_index q) r)
               (rows origin_query) res).
Proof.
  intros (res & Hres & HF).
  assert (res = [[0; 1]]%nat) as -> by (vm_compute in Hres; congruence).
  apply Forall2_cons_1 in HF as [(_ & _ & Hs) _].
  apply StronglySorted_inv in Hs as [_ Hall].
  apply Forall_cons in Hall as [Hc _].
  by apply close_index_order in Hc.
Qed.


(** The scenario of the specification: collection [[0,0],[10,10],[0.1,0.1]],
    query [0,0], k = 2. *)
Example exhaustive_search_scenario :
  semi_optimized_exhaustive_search binary64 false sample_index
    (mk_ndarray 2 [[0 # 1; 0 # 1]]%Q) 2 = Ok [[0; 2]]%nat.
Proof. vm_compute. reflexivity. Qed.

Lemma np_array_ragged {A} (rs : list (list A)) (r1 r2 : list A) :
  r1 ∈ rs -> r2 ∈ rs -> length r1 <> length r2 ->
  np_array false rs = Raise ValueError.
Proof.
  intros H1 H2 Hne. unfold np_array.
  destruct (same_lengths rs) eqn:Hsame; [|done]. exfalso.
  destruct rs as [|r rs]; [by apply elem_of_nil in H1|].
  simpl in Hsame.
  assert (forall x, x ∈ r :: rs -> length x = length r) as Hall.
  { intros x [->|Hx]%elem_of_cons; [done|].
    rewrite forallb_forall in Hsame. apply Nat.eqb_eq, Hsame.
    by apply list_elem_of_In. }
  rewrite (Hall r1 H1), (Hall r2 H2) in Hne. done.
Qed.

(** When one query gets the empty row and another does not, a NumPy that
    rejects rows of unequal length makes the whole search raise, where one
    that accepts them returns the rows. *)
Lemma empty_row_among_others (ar : arithmetic) qs iv hfs tables k res r :
  result_rows ar qs iv hfs tables k = Ok res ->
  [] ∈ res -> r ∈ res -> r <> [] ->
  custom_index_search ar false qs iv hfs tables k = Raise ValueError /\
  custom_index_search ar true qs iv hfs tables k = Ok res.
Proof.
  intros Hres Hnil Hr Hne. unfold custom_index_search. rewrite Hres.
  bind_step. split; [|done].
  apply (np_array_ragged res [] r); [done | done |].
  destruct r; [done | discriminate].
Qed.

(** C8 (the defect). A query whose candidate set is empty after probing
    every hash table gets the empty row from the loop, as the claim says:
    nothing is raised there and nothing is scanned instead. But when, for
    k >= 1, another query of the batch has a candidate, the rows differ in
    length and the call, which ends in [np.array(result_indices)], raises
    [ValueError] with a NumPy that does not accept such rows (1.24 and
    later). Only an older NumPy returns the rows; the query's row is then
    empty and contributes a recall of zero when evaluated. *)
Theorem empty_row_batch_raises (ar : arithmetic) (qs iv : ndarray)
    (hfs : list ndarray) (tables : list hash_table) (k : Z)
    (m : nat) (q q' : vector) (cands : gset nat) :
  1 <= k -> ncols qs = ncols iv -> well_shaped qs ->
  Forall (fun hf => ncols hf = ncols iv) hfs ->
  Forall (ids_in_range (nrows iv)) tables ->
  rows qs !! m = Some q ->
  gather_candidates q (max_candidates_of iv) hfs tables = Ok ∅ ->
  q' ∈ rows qs ->
  gather_candidates q' (max_candidates_of iv) hfs tables = Ok cands ->
  cands ≠ ∅ ->
  search_one ar iv hfs tables k q = Ok [] /\
  custom_index_search ar false qs iv hfs tables k = Raise ValueError /\
  exists res,
    custom_index_search ar true qs iv hfs tables k = Ok res /\
    res !! m = Some [] /\
    forall nn_gt g k', nn_gt !! m = Some g -> k' <> 0 ->
      exists x, recall_term nn_gt res k' m = Ok x /\ (x == 0)%Q.
Proof.
  intros Hk Hcols Hqs Hhfs Htabs Hq Hg Hq' Hg' Hne.
  destruct (empty_candidates_empty_row ar iv hfs tables k q Hg)
    as [Hone Hbatch].
  split; [done|].
  destruct (result_rows_Ok ar qs iv hfs tables k) as (res & Hres & HF);
    [lia | done | done | done | done |].
  assert ([] ∈ res) as Hnil.
  { destruct (Forall2_lookup_l _ _ _ _ _ HF Hq)
      as (r & Hr & c & s & Hc & _ & Hperm & _ & ->).
    assert (c = ∅) as -> by congruence.
    rewrite elements_empty in Hperm. apply Permutation_nil_r in Hperm as ->.
    rewrite take_nil in Hr. by eapply list_elem_of_lookup_2. }
  assert (exists r, r ∈ res /\ r <> []) as (r & Hr & Hrne).
  { apply list_elem_of_lookup in Hq' as [m' Hm'].
    destruct (Forall2_lookup_l _ _ _ _ _ HF Hm')
      as (r & Hr & c & s & Hc & _ & Hperm & _ & ->).
    assert (c = cands) as -> by congruence.
    exists (take (Z.to_nat k) s). split; [by eapply list_elem_of_lookup_2|].
    destruct s as [|i s].
    - apply Permutation_nil_l in Hperm. symmetry in Hperm.
      apply elements_empty_inv in Hperm.
      by apply leibniz_equiv in Hperm.
    - destruct (Z.to_nat k) as [|n] eqn:Hn; [lia | discriminate]. }
  destruct (empty_row_among_others ar qs iv hfs tables k res r)
    as [Hraise Hret]; try done.
  split; [done|]. exists res. split; [done|].
  by apply (Hbatch true qs res m).
Qed.

Lemma empty_row_batch_raises_witness :
  search_one binary64 sample_index sample_family sample_tables 2
             [-1 # 1; -2 # 1]%Q = Ok [] /\
  custom_index_search binary64 false sample_queries sample_index sample_family
                      sample_tables 2 = Raise ValueError /\
  exists res,
    custom_index_search binary64 true sample_queries sample_index
                        sample_family sample_tables 2 = Ok res /\
    res !! 1%nat = Some [] /\
    forall nn_gt g k', nn_gt !! 1%nat = Some g -> k' <> 0 ->
      exists x, recall_term nn_gt res k' 1 = Ok x /\ (x == 0)%Q.
Proof.
  apply (empty_row_batch_raises binary64 sample_queries sample_index
           sample_family sample_tables 2 1 [-1 # 1; -2 # 1]%Q
           [0 # 1; 0 # 1]%Q (list_to_set [0; 1; 2]%nat)).
  - lia.
  - reflexivity.
  - repeat constructor.
  - repeat constructor.
  - apply sample_tables_in_range.
  - reflexivity.
  - vm_compute. reflexivity.
  - apply elem_of_cons. by left.
  - vm_compute. reflexivity.
  - intros Hempty.
    assert ((0%nat : nat) ∈ (∅ : gset nat)) as Hin
      by (rewrite <- Hempty; apply elem_of_list_to_set, elem_of_cons; auto).
    by apply not_elem_of_empty in Hin.
Defined.

(** The sample batch: the first query's row has two ids, the second query's
    row is empty. *)
Example sample_batch_rows :
  result_rows binary64 sample_queries sample_index sample_family
              sample_tables 2 = Ok [[0; 2]; []]%nat.
Proof. vm_compute. reflexivity. Qed.




(** C6 (as amended). The evaluator raises [ZeroDivisionError] when the
    approximate batch is empty; otherwise, when k = 0, it raises
    [IndexError] if the ground-truth batch is empty and [ZeroDivisionError]
    if not; otherwise it raises [IndexError] when the ground-truth batch has
    fewer queries than the approximate batch; in every other case, a
    negative k and a longer ground-truth batch included, it returns a
    score. *)
Theorem compute_recall_error_cases (nn_gt ann : list (list nat)) (k : Z) :
  if decide (ann = []) then
    compute_recall_at_k nn_gt ann k = Raise ZeroDivisionError
  else if k =? 0 then
    compute_recall_at_k nn_gt ann k =
    Raise (match nn_gt with [] => IndexError | _ => ZeroDivisionError end)
  else if (length nn_gt <? length ann)%nat then
    compute_recall_at_k nn_gt ann k = Raise IndexError
  else exists x, compute_recall_at_k nn_gt ann k = Ok x.
Proof.
  rewrite compute_recall_cases.
  destruct (decide (ann = [])); [done|].
  destruct (k =? 0); [done|].
  destruct (length nn_gt <? length ann)%nat; [done|]. by eexists.
Qed.

(** C6, as the specification words it, fails: a negative k, or a ground-truth
    batch longer than the approximate one, yields a score. *)
Lemma compute_recall_unchecked_arguments :
  ~ (forall nn_gt ann k, length nn_gt <> length ann \/ k <= 0 ->
       is_ok (compute_recall_at_k nn_gt ann k) = false).
Proof.
  intros H.
  specialize (H [[0; 2]]%nat [[0; 2]]%nat (-1) ltac:(right; lia)).
  vm_compute in H. discriminate.
Qed.

(** * Further properties of the notebook functions *)

(** ** [hash_vector] *)

(** [hash_vector] raises [ValueError] exactly when the vector's length
    differs from the matrix's column count; otherwise the key has one entry
    per matrix row and every entry is 0 or 1. *)
Theorem hash_vector_cases (v : vector) (hf : ndarray) :
  if decide (ncols hf = length v)
  then exists key, hash_vector v hf = Ok key /\
                   length key = nrows hf /\
                   Forall (fun b => b = 0 \/ b = 1) key
  else hash_vector v hf = Raise ValueError.
Proof.
  destruct (decide (ncols hf = length v)) as [Heq|Hne].
  - rewrite hash_vector_Ok by done. eexists. split; [done|]. split.
    + by rewrite !length_map.
    + apply Forall_forall. intros b Hb.
      apply list_elem_of_In, in_map_iff in Hb as (x & <- & _).
      unfold positive_bit. destruct (Qle_bool x 0); auto.
  - unfold hash_vector, np_dot. by rewrite decide_False.
Qed.

(** ** [semi_optimized_exhaustive_search], any k *)

Lemma length_slice_to {A} (k : Z) (l : list A) :
  length (slice_to k l) =
  if 0 <=? k then Nat.min (Z.to_nat k) (length l)
  else (length l - Z.to_nat (- k))%nat.
Proof.
  unfold slice_to. destruct (0 <=? k); rewrite length_take; [done | lia].
Qed.

Lemma slice_to_take {A} (k : Z) (l : list A) :
  exists n, slice_to k l = take n l.
Proof. unfold slice_to. destruct (0 <=? k); eauto. Qed.

Lemma exhaustive_search_eq (ar : arithmetic) (ragged_ok : bool)
    (iv qs : ndarray) (k : Z) :
  ncols qs = ncols iv -> well_shaped qs ->
  semi_optimized_exhaustive_search ar ragged_ok iv qs k =
  Ok (map (fun q => slice_to k (argsort (map (fun u => computed_distance ar u q) (rows iv))))
          (rows qs)).
Proof.
  intros Hcols Hqs. unfold semi_optimized_exhaustive_search.
  rewrite (for_each_Ok _ (fun q => slice_to k
             (argsort (map (fun u => computed_distance ar u q) (rows iv))))).
  - bind_step.
    apply np_array_same_length with
      (if 0 <=? k then Nat.min (Z.to_nat k) (nrows iv)
       else (nrows iv - Z.to_nat (- k))%nat).
    apply Forall_forall. intros r Hr.
    apply list_elem_of_In, in_map_iff in Hr as (q & <- & _).
    by rewrite length_slice_to, argsort_length, length_map.
  - eapply Forall_impl; [exact Hqs|].
    intros q Hq. simpl in Hq. by rewrite exhaustive_one_eq by congruence.
Qed.

(** The exhaustive search looks at every index vector: whatever k, no index
    vector left out of a query's row is, by the distances the code computes,
    nearer to the query than one that is in it. *)
Theorem exhaustive_search_nearest (ar : arithmetic) (ragged_ok : bool)
    (iv qs : ndarray) (k : Z) :
  ncols qs = ncols iv -> well_shaped qs ->
  exists res,
    semi_optimized_exhaustive_search ar ragged_ok iv qs k = Ok res /\
    Forall2 (fun q r =>
               forall i j, i ∈ r -> (j < nrows iv)%nat -> j ∉ r ->
                           computed_closer ar iv q i j)
            (rows qs) res.
Proof.
  intros Hcols Hqs. rewrite exhaustive_search_eq by done.
  eexists. split; [done|].
  apply Forall2_fmap_r, Forall_Forall2_diag, Forall_forall.
  intros q _ i j Hi Hj Hnj.
  set (ds := map (fun u => computed_distance ar u q) (rows iv)) in *.
  destruct (slice_to_take k (argsort ds)) as [n Hn]. rewrite Hn in Hi, Hnj.
  assert (j ∈ argsort ds) as Hjin.
  { rewrite argsort_perm. apply elem_of_seq. unfold ds.
    rewrite length_map. unfold nrows in Hj. lia. }
  pose proof (argsort_sorted ds) as Hs.
  rewrite <- (take_drop n (argsort ds)) in Hjin, Hs.
  apply elem_of_app in Hjin as [?|Hjin]; [done|].
  apply rank_le_computed_closer. by eapply StronglySorted_app_1_elem_of.
Qed.

Lemma exhaustive_search_nearest_witness :
  exists res,
    semi_optimized_exhaustive_search binary64 false sample_index sample_queries 2 =
      Ok res /\
    Forall2 (fun q r =>
               forall i j, i ∈ r -> (j < nrows sample_index)%nat -> j ∉ r ->
                           computed_closer binary64 sample_index q i j)
            (rows sample_queries) res.
Proof.
  apply (exhaustive_search_nearest binary64 false sample_index sample_queries 2).
  - reflexivity.
  - repeat constructor.
Defined.



(** Queries whose dimension differs from the index vectors' make the
    exhaustive search raise [ValueError] (the subtraction cannot broadcast),
    unless one of the two dimensions is 1. *)
Theorem exhaustive_search_dimension_mismatch (ar : arithmetic)
    (ragged_ok : bool)
    (iv qs : ndarray) (k : Z) :
  rows qs <> [] -> well_shaped qs ->
  ncols qs <> ncols iv -> ncols qs <> 1%nat -> ncols iv <> 1%nat ->
  semi_optimized_exhaustive_search ar ragged_ok iv qs k = Raise ValueError.
Proof.
  intros Hne Hqs Hd Hq1 Hi1. unfold semi_optimized_exhaustive_search.
  unfold well_shaped in Hqs.
  destruct (rows qs) as [|q qs'] eqn:Hrows; [done|].
  apply Forall_cons in Hqs as [Hq _].
  assert (exhaustive_one ar iv k q = Raise ValueError) as Hone.
  { unfold exhaustive_one, sub_broadcast.
    rewrite !decide_False by congruence. done. }
  cbn [for_each]. by rewrite Hone.
Qed.

Lemma exhaustive_search_dimension_mismatch_witness :
  semi_optimized_exhaustive_search binary64 false sample_index
    (mk_ndarray 3 [[0 # 1; 0 # 1; 0 # 1]]%Q) 2 = Raise ValueError.
Proof.
  apply (exhaustive_search_dimension_mismatch binary64 false sample_index
           (mk_ndarray 3 [[0 # 1; 0 # 1; 0 # 1]]%Q) 2).
  - discriminate.
  - repeat constructor.
  - simpl. lia.
  - simpl. lia.
  - simpl. lia.
Defined.

(** ** [compute_recall_at_k]: range, symmetry, recall against oneself *)

Lemma round_half_even_le (y : Q) (n : Z) :
  (y <= inject_Z n)%Q -> round_half_even y <= n.
Proof.
  intros Hy. unfold round_half_even.
  pose proof (Qfloor_resp_le _ _ Hy) as Hf. rewrite Qfloor_Z in Hf.
  pose proof (Qfloor_le y) as Hlo.
  destruct (Z.eq_dec (Qfloor y) n) as [Heq|Hne].
  - rewrite Heq in *.
    destruct (Qcompare_spec (y - inject_Z n) (1 # 2)) as [He|Hl|Hg];
      [lra | lia | lra].
  - destruct (Qcompare (y - inject_Z (Qfloor y)) (1 # 2));
      [destruct (Z.even (Qfloor y))| |]; lia.
Qed.

Lemma round_half_even_ge (y : Q) (n : Z) :
  (inject_Z n <= y)%Q -> n <= round_half_even y.
Proof.
  intros Hy. unfold round_half_even.
  pose proof (Qfloor_resp_le _ _ Hy) as Hf. rewrite Qfloor_Z in Hf.
  destruct (Qcompare (y - inject_Z (Qfloor y)) (1 # 2));
    [destruct (Z.even (Qfloor y))| |]; lia.
Qed.

Lemma round3_unit_interval (x : Q) :
  (0 <= x <= 1)%Q -> (0 <= round3 x <= 1)%Q.
Proof.
  intros [H0 H1]. unfold round3.
  assert (0 <= round_half_even (x * inject_Z 1000) <= 1000) as [Hlo Hhi].
  { split.
    - apply round_half_even_ge. change (inject_Z 0) with 0%Q.
      change (inject_Z 1000) with (1000 # 1)%Q. lra.
    - apply round_half_even_le. change (inject_Z 1000) with (1000 # 1)%Q. lra. }
  unfold Qle. simpl. lia.
Qed.

Lemma sum_unit_interval (xs : list Q) :
  Forall (fun x => 0 <= x <= 1)%Q xs ->
  (0 <= foldr Qplus 0 xs <= inject_Z (Z.of_nat (length xs)))%Q.
Proof.
  induction 1 as [|x xs Hx _ IH]; simpl foldr.
  - change (inject_Z (Z.of_nat (length (@nil Q)))) with 0%Q. lra.
  - cbn [length]. rewrite Nat2Z.inj_succ, <- Z.add_1_r, inject_Z_plus.
    change (inject_Z 1) with 1%Q. lra.
Qed.

Lemma mean_unit_interval (xs : list Q) :
  xs <> [] -> Forall (fun x => 0 <= x <= 1)%Q xs -> (0 <= mean xs <= 1)%Q.
Proof.
  intros Hne Hxs. unfold mean.
  pose proof (sum_unit_interval xs Hxs) as [Hlo Hhi].
  assert (0 < inject_Z (Z.of_nat (length xs)))%Q as Hpos.
  { change 0%Q with (inject_Z 0). rewrite <- Zlt_Qlt.
    destruct xs; [done | simpl; lia]. }
  split.
  - apply Qle_shift_div_l; [done | lra].
  - apply Qle_shift_div_r; [done | lra].
Qed.

Lemma common_ids_le (a g : list nat) : (common_ids a g <= length a)%nat.
Proof.
  unfold common_ids. etrans; [apply length_filter|].
  apply submseteq_length, NoDup_submseteq; [apply NoDup_remove_dups|].
  intros x. by rewrite elem_of_remove_dups.
Qed.

Lemma recall_i_unit_interval (a g : list nat) (k : Z) :
  1 <= k -> Z.of_nat (length a) <= k -> (0 <= recall_i a g k <= 1)%Q.
Proof.
  intros Hk Ha. unfold recall_i.
  pose proof (common_ids_le a g) as Hc.
  assert (0 < inject_Z k)%Q as Hpos
    by (change 0%Q with (inject_Z 0); rewrite <- Zlt_Qlt; lia).
  split.
  - apply Qle_shift_div_l; [done|]. rewrite Qmult_0_l.
    change 0%Q with (inject_Z 0). rewrite <- Zle_Qle. lia.
  - apply Qle_shift_div_r; [done|]. rewrite Qmult_1_l.
    rewrite <- Zle_Qle. lia.
Qed.

(** With k >= 1, at least one query, a ground-truth row for every query and
    approximate rows of at most k ids, the score lies between 0 and 1. *)
Theorem compute_recall_bounded (nn_gt ann : list (list nat)) (k : Z) :
  1 <= k -> ann <> [] -> (length ann <= length nn_gt)%nat ->
  Forall (fun a => Z.of_nat (length a) <= k) ann ->
  exists x, compute_recall_at_k nn_gt ann k = Ok x /\ (0 <= x <= 1)%Q.
Proof.
  intros Hk Hne Hlen Hrows. exists (recall_spec nn_gt ann k).
  split; [apply compute_recall_Ok; (done || lia)|].
  unfold recall_spec. apply round3_unit_interval, mean_unit_interval.
  - destruct ann as [|a ann]; [done|].
    destruct nn_gt as [|g nn_gt]; [simpl in Hlen; lia | done].
  - clear Hne Hlen. revert nn_gt.
    induction Hrows as [|a ann Ha _ IH]; intros [|g nn_gt]; simpl;
      try constructor; auto using recall_i_unit_interval.
Qed.

Lemma compute_recall_bounded_witness :
  exists x, compute_recall_at_k [[0; 2]; [2; 0]; [1]]%nat
                                [[0; 2; 2]; []]%nat 3 = Ok x /\
            (0 <= x <= 1)%Q.
Proof.
  apply (compute_recall_bounded [[0; 2]; [2; 0]; [1]]%nat [[0; 2; 2]; []]%nat 3).
  - lia.
  - discriminate.
  - simpl. lia.
  - repeat constructor; simpl; lia.
Defined.

Lemma common_ids_comm (a g : list nat) : common_ids a g = common_ids g a.
Proof.
  rewrite <- !overlap_common. unfold overlap. f_equal.
  apply (comm_L (∩)).
Qed.

(** The score does not depend on which of two equally long batches is
    called the ground truth. *)
Theorem compute_recall_symmetric (xs ys : list (list nat)) (k : Z) :
  length xs = length ys ->
  compute_recall_at_k xs ys k = compute_recall_at_k ys xs k.
Proof.
  intros Hlen. rewrite !compute_recall_cases.
  destruct xs as [|x xs], ys as [|y ys]; try discriminate; [done|].
  rewrite !decide_False by done.
  destruct (k =? 0); [done|].
  rewrite Hlen, Nat.ltb_irrefl. f_equal. unfold recall_spec. f_equal. f_equal.
  rewrite <- (zip_with_flip _ (y :: ys) (x :: xs)).
  apply zip_with_ext; [|done..]. intros a g. unfold flip, recall_i.
  by rewrite common_ids_comm.
Qed.

Lemma compute_recall_symmetric_witness :
  compute_recall_at_k [[0; 2]; [2; 0]]%nat [[0; 2; 2]; []]%nat 2 =
  compute_recall_at_k [[0; 2; 2]; []]%nat [[0; 2]; [2; 0]]%nat 2.
Proof.
  apply (compute_recall_symmetric [[0; 2]; [2; 0]]%nat [[0; 2; 2]; []]%nat 2).
  reflexivity.
Defined.

Lemma common_ids_self (r : list nat) : NoDup r -> common_ids r r = length r.
Proof.
  intros Hr. rewrite <- overlap_common. unfold overlap.
  rewrite (idemp_L (∩)). by apply size_list_to_set.
Qed.

Lemma sum_ones (xs : list Q) :
  Forall (fun x => x == 1)%Q xs ->
  (foldr Qplus 0 xs == inject_Z (Z.of_nat (length xs)))%Q.
Proof.
  induction 1 as [|x xs Hx _ IH]; simpl foldr.
  - reflexivity.
  - cbn [length]. rewrite Nat2Z.inj_succ, <- Z.add_1_r, inject_Z_plus.
    change (inject_Z 1) with 1%Q. rewrite IH, Hx. lra.
Qed.

Lemma compute_recall_self (rs : list (list nat)) (k : Z) :
  1 <= k -> rs <> [] ->
  Forall (fun r => NoDup r /\ Z.of_nat (length r) = k) rs ->
  compute_recall_at_k rs rs k = Ok (1000 # 1000)%Q.
Proof.
  intros Hk Hne Hrows. rewrite compute_recall_Ok by (done || lia).
  f_equal. unfold recall_spec.
  change (1000 # 1000)%Q with (round3 1). apply round3_proper.
  set (xs := zip_with (fun a g => recall_i a g k) rs rs).
  assert (Forall (fun x => x == 1)%Q xs) as Hones.
  { subst xs. clear Hne. induction Hrows as [|r rs [Hnd Hl] _ IH]; simpl;
      constructor; [|done].
    unfold recall_i. rewrite common_ids_self, Hl by done.
    apply Qmult_inv_r. change 0%Q with (inject_Z 0). rewrite inject_Z_injective. lia. }
  unfold mean. rewrite (sum_ones xs Hones).
  apply Qmult_inv_r. change 0%Q with (inject_Z 0). rewrite inject_Z_injective.
  subst xs. destruct rs; [done | simpl; lia].
Qed.

(** A batch in which every row has exactly k distinct ids scores exactly 1
    against itself. *)
Theorem compute_recall_against_itself (rs : list (list nat)) (k : Z) :
  1 <= k -> rs <> [] ->
  Forall (fun r => NoDup r /\ Z.of_nat (length r) = k) rs ->
  exists x, compute_recall_at_k rs rs k = Ok x /\ (x == 1)%Q.
Proof.
  intros Hk Hne Hrows. exists (1000 # 1000)%Q.
  split; [by apply compute_recall_self | reflexivity].
Qed.

Lemma compute_recall_against_itself_witness :
  exists x, compute_recall_at_k [[0; 2]; [2; 1]]%nat [[0; 2]; [2; 1]]%nat 2 = Ok x /\
            (x == 1)%Q.
Proof.
  apply (compute_recall_against_itself [[0; 2]; [2; 1]]%nat 2).
  - lia.
  - discriminate.
  - repeat constructor; rewrite ?elem_of_cons, ?elem_of_nil; lia.
Defined.

(** The ground truth scores 1 against itself: for 1 <= k <= N and at least
    one query of the index dimension, the exhaustive search returns a batch
    whose recall against itself is exactly 1. *)
Theorem exhaustive_search_recall_one (ar : arithmetic) (ragged_ok : bool)
    (iv qs : ndarray)
    (k : Z) :
  1 <= k <= Z.of_nat (nrows iv) -> rows qs <> [] ->
  ncols qs = ncols iv -> well_shaped qs ->
  exists gt x,
    semi_optimized_exhaustive_search ar ragged_ok iv qs k = Ok gt /\
    compute_recall_at_k gt gt k = Ok x /\ (x == 1)%Q.
Proof.
  intros Hk Hne Hcols Hqs. rewrite exhaustive_search_eq by done.
  eexists. exists (1000 # 1000)%Q. split; [done|].
  split; [|reflexivity]. apply compute_recall_self; [lia | |].
  - by destruct (rows qs).
  - apply Forall_forall. intros r Hr.
    apply list_elem_of_In, in_map_iff in Hr as (q & <- & _).
    rewrite slice_to_nonneg by lia. split.
    + eapply sublist_NoDup; [|apply sublist_take].
      rewrite argsort_perm. apply NoDup_seq.
    + rewrite length_take, argsort_length, length_map.
      unfold nrows in Hk. lia.
Qed.

Lemma exhaustive_search_recall_one_witness :
  exists gt x,
    semi_optimized_exhaustive_search binary64 false sample_index sample_queries 2 =
      Ok gt /\
    compute_recall_at_k gt gt 2 = Ok x /\ (x == 1)%Q.
Proof.
  apply (exhaustive_search_recall_one binary64 false sample_index sample_queries 2).
  - change (1 <= 2 <= 3). lia.
  - discriminate.
  - reflexivity.
  - repeat constructor.
Defined.

(** ** Building, then looking up *)

(** After the build, each table holds every indexed vector's id in the
    bucket keyed by that vector's own signature. *)
Theorem built_bucket_contains (iv : ndarray) (hfs : list ndarray) :
  well_shaped iv -> Forall (fun hf => ncols hf = ncols iv) hfs ->
  exists tables,
    custom_indexing_algorithm iv hfs = Ok tables /\
    forall i v j hf,
      rows iv !! i = Some v -> hfs !! j = Some hf ->
      exists (t : hash_table) key b,
        tables !! j = Some t /\ hash_vector v hf = Ok key /\
        t !! key = Some b /\ i ∈ b.
Proof.
  intros Hiv Hhfs. rewrite custom_indexing_algorithm_Ok by done.
  eexists. split; [done|]. intros i v j hf Hv Hhf.
  exists (table_after hf ∅ (enumerate (rows iv))), (signature_of hf v),
         (ids_with hf (signature_of hf v) (enumerate (rows iv))).
  assert (i ∈ ids_with hf (signature_of hf v) (enumerate (rows iv))) as Hin.
  { apply elem_of_ids_with. by exists v. }
  repeat split.
  - change (map ?f ?l) with (f <$> l). by rewrite list_lookup_fmap, Hhf.
  - apply hash_vector_Ok.
    rewrite Forall_forall in Hhfs. rewrite (Hhfs hf) by by eapply list_elem_of_lookup_2.
    unfold well_shaped in Hiv. rewrite Forall_forall in Hiv.
    symmetry. apply Hiv. by eapply list_elem_of_lookup_2.
  - rewrite table_after_lookup, lookup_empty.
    destruct (ids_with hf (signature_of hf v) (enumerate (rows iv)));
      [by apply elem_of_nil in Hin | done].
  - done.
Qed.

Lemma built_bucket_contains_witness :
  exists tables,
    custom_indexing_algorithm sample_index sample_family = Ok tables /\
    forall i v j hf,
      rows sample_index !! i = Some v -> sample_family !! j = Some hf ->
      exists (t : hash_table) key b,
        tables !! j = Some t /\ hash_vector v hf = Ok key /\
        t !! key = Some b /\ i ∈ b.
Proof.
  apply (built_bucket_contains sample_index sample_family).
  - repeat constructor.
  - repeat constructor.
Defined.

(** Searching for a vector that is in the index gathers its id: with at
    least one hash function, at most 1000 indexed vectors (so that no bucket
    is cut by the cap) and k >= 1, the id of the vector is a candidate, the
    row is not empty, and the id that comes first is, by the computed
    distances, no farther from the query than the vector itself. *)
Theorem indexed_vector_gathered (ar : arithmetic) (iv : ndarray)
    (hfs : list ndarray) (k : Z) (i : nat) (q : vector) :
  well_shaped iv -> Forall (fun hf => ncols hf = ncols iv) hfs ->
  hfs <> [] -> (nrows iv <= 1000)%nat -> 1 <= k ->
  rows iv !! i = Some q ->
  exists tables (cands : gset nat) r j,
    custom_indexing_algorithm iv hfs = Ok tables /\
    gather_candidates q (max_candidates_of iv) hfs tables = Ok cands /\
    i ∈ cands /\
    search_one ar iv hfs tables k q = Ok r /\
    r !! 0%nat = Some j /\
    computed_closer ar iv q j i.
Proof.
  intros Hiv Hhfs Hne HN Hk Hq.
  assert (length q = ncols iv) as Hlen.
  { unfold well_shaped in Hiv. rewrite Forall_forall in Hiv.
    apply Hiv. by eapply list_elem_of_lookup_2. }
  set (tables := map (fun hf => table_after hf ∅ (enumerate (rows iv))) hfs).
  assert (custom_indexing_algorithm iv hfs = Ok tables) as Hbuild
    by by apply custom_indexing_algorithm_Ok.
  destruct (search_one_spec ar iv hfs tables k q)
    as (cands & s & Hg & Hmem & Hperm & Hsort & Hr); [done | | | lia |].
  { eapply Forall_impl; [exact Hhfs|]. simpl. intros; congruence. }
  { by eapply custom_indexing_ids_in_range. }
  assert (i ∈ cands) as Hic.
  { apply Hmem.
    destruct hfs as [|hf hfs']; [done|].
    apply Forall_cons in Hhfs as [Hhf _].
    set (key := signature_of hf q).
    set (b := ids_with hf key (enumerate (rows iv))).
    assert (i ∈ b) as Hib by (apply elem_of_ids_with; by exists q).
    exists 0%nat, hf, (table_after hf ∅ (enumerate (rows iv))), key, b.
    repeat split; [by apply hash_vector_Ok; congruence | |].
    - rewrite table_after_lookup, lookup_empty. fold b.
      destruct b; [by apply elem_of_nil in Hib | done].
    - rewrite take_ge; [done|].
      assert (length b <= nrows iv)%nat.
      { unfold b, ids_with, enumerate. rewrite length_map.
        etrans; [apply length_filter|].
        rewrite length_zip_with, length_seq. unfold nrows. lia. }
      unfold max_candidates_of. destruct (ncols iv <? 150)%nat; lia. }
  assert (i ∈ s) as Hi by (rewrite Hperm; by apply elem_of_elements).
  destruct s as [|j s']; [by apply elem_of_nil in Hi|].
  exists tables, cands, (take (Z.to_nat k) (j :: s')), j.
  repeat split; try done.
  - destruct (Z.to_nat k) as [|n] eqn:Hn; [lia | done].
  - apply StronglySorted_inv in Hsort as [_ Hall].
    apply elem_of_cons in Hi as [->|Hi].
    + exists q, q. repeat split; try done. apply Qle_refl.
    + rewrite Forall_forall in Hall. by apply Hall.
Qed.

Lemma indexed_vector_gathered_witness :
  exists tables (cands : gset nat) r j,
    custom_indexing_algorithm sample_index sample_family = Ok tables /\
    gather_candidates [1 # 10; 1 # 10]%Q (max_candidates_of sample_index)
                      sample_family tables = Ok cands /\
    2%nat ∈ cands /\
    search_one binary64 sample_index sample_family tables 2
               [1 # 10; 1 # 10]%Q = Ok r /\
    r !! 0%nat = Some j /\
    computed_closer binary64 sample_index [1 # 10; 1 # 10]%Q j 2.
Proof.
  apply (indexed_vector_gathered binary64 sample_index sample_family 2 2).
  - repeat constructor.
  - repeat constructor.
  - discriminate.
  - change (3 <= 1000)%nat. lia.
  - lia.
  - reflexivity.
Defined.

(** ** [custom_index_search]: size of the candidate set, edges, errors *)

Lemma size_list_to_set_le (l : list nat) :
  (size (list_to_set l : gset nat) <= length l)%nat.
Proof.
  induction l as [|x l IH].
  - change (list_to_set [] : gset nat) with (∅ : gset nat).
    by rewrite size_empty.
  - rewrite list_to_set_cons. cbn [length].
    rewrite size_union_alt, size_singleton.
    pose proof (subseteq_size (list_to_set l ∖ {[x]}) (list_to_set l : gset nat)
                  (subseteq_difference_l _ _ _ (reflexivity _))). lia.
Qed.

Lemma probe_size q C (acc acc' : gset nat) (ht : ndarray * hash_table) :
  probe q C acc ht = Ok acc' -> (size acc' <= size acc + C)%nat.
Proof.
  unfold probe. intros H. apply bind_Ok_inv in H as (key & _ & H).
  destruct (ht.2 !! key) as [b|]; injection H as <-; [|lia].
  rewrite size_union_alt.
  pose proof (subseteq_size (list_to_set (take C b) ∖ acc)
                (list_to_set (take C b) : gset nat)
                (subseteq_difference_l _ _ _ (reflexivity _))).
  pose proof (size_list_to_set_le (take C b)).
  rewrite length_take in *. lia.
Qed.

Lemma gather_loop_size q C (l : list (ndarray * hash_table)) :
  forall acc cands : gset nat,
  for_fold (probe q C) l acc = Ok cands ->
  (size cands <= size acc + length l * C)%nat.
Proof.
  induction l as [|ht l IH]; intros acc cands H; cbn [for_fold] in H.
  - injection H as <-. simpl. lia.
  - apply bind_Ok_inv in H as (acc' & Hp & H).
    apply probe_size in Hp. apply IH in H. simpl. lia.
Qed.

(** The cap bounds the work of re-ranking: a query's candidate set has at
    most C ids per probed table, min(F, number of tables) * C in all. *)
Theorem candidate_set_bounded (q : vector) (C : nat) (hfs : list ndarray)
    (tables : list hash_table) (cands : gset nat) :
  gather_candidates q C hfs tables = Ok cands ->
  (size cands <= Nat.min (length hfs) (length tables) * C)%nat.
Proof.
  intros H. apply gather_loop_size in H.
  rewrite size_empty, length_zip_with in H. lia.
Qed.

Lemma candidate_set_bounded_witness :
  (size (list_to_set [0; 1]%nat : gset nat) <=
   Nat.min (length sample_family) (length sample_tables) * 2)%nat.
Proof.
  apply (candidate_set_bounded [0 # 1; 0 # 1]%Q 2 sample_family sample_tables).
  vm_compute. reflexivity.
Defined.

Lemma zip_nil_r {A B} (l : list A) : zip l (@nil B) = [].
Proof. by destruct l. Qed.

(** With no hash function or no hash table nothing is probed: whatever the
    shapes and whatever k, every query gets the empty row and nothing is
    raised. *)
Theorem search_without_tables (ar : arithmetic) (ragged_ok : bool)
    (qs iv : ndarray)
    (hfs : list ndarray) (tables : list hash_table) (k : Z) :
  hfs = [] \/ tables = [] ->
  custom_index_search ar ragged_ok qs iv hfs tables k =
  Ok (map (fun _ => []) (rows qs)).
Proof.
  intros Hnone.
  assert (forall q, search_one ar iv hfs tables k q = Ok []) as Hone.
  { intros q. unfold search_one, gather_candidates.
    replace (zip hfs tables) with (@nil (ndarray * hash_table))
      by (destruct Hnone as [-> | ->]; [done | by rewrite zip_nil_r]).
    cbn [for_fold]. bind_step. by rewrite decide_True. }
  unfold custom_index_search, result_rows.
  rewrite (for_each_Ok _ (fun _ => [])) by (apply Forall_forall; auto).
  bind_step. apply np_array_same_length with 0%nat.
  apply Forall_forall. intros r Hr.
  by apply list_elem_of_In, in_map_iff in Hr as (q & <- & _).
Qed.

Lemma search_without_tables_witness :
  custom_index_search binary64 false sample_queries sample_index sample_family [] 2 =
  Ok (map (fun _ => []) (rows sample_queries)).
Proof.
  apply (search_without_tables binary64 false sample_queries sample_index
                               sample_family [] 2).
  by right.
Defined.

Lemma fancy_index_out_of_range {A} (a : list A) (ids : list nat) :
  Exists (fun i => length a <= i)%nat ids ->
  fancy_index a ids = Raise IndexError.
Proof.
  unfold fancy_index. induction 1 as [i ids Hi|i ids _ IH]; cbn [for_each].
  - by rewrite (lookup_ge_None_2 a i Hi).
  - destruct (a !! i); [|done]. bind_step. by rewrite IH.
Qed.

(** An index that does not belong to the collection is not detected up
    front: the search raises [IndexError] as soon as a query gathers an id
    that is no row of [index_vectors]. *)
Theorem stale_index_raises (ar : arithmetic) (iv : ndarray)
    (hfs : list ndarray)
    (tables : list hash_table) (k : Z) (q : vector) (cands : gset nat)
    (i : nat) :
  gather_candidates q (max_candidates_of iv) hfs tables = Ok cands ->
  i ∈ cands -> (nrows iv <= i)%nat ->
  search_one ar iv hfs tables k q = Raise IndexError.
Proof.
  intros Hg Hi Hout. unfold search_one. rewrite Hg. bind_step.
  rewrite decide_False by (intros ->; by apply not_elem_of_empty in Hi).
  unfold rerank. rewrite fancy_index_out_of_range; [done|].
  apply Exists_exists. exists i. split; [|done].
  rewrite list_of_set_perm. by apply elem_of_elements.
Qed.

Lemma stale_index_raises_witness :
  search_one binary64 short_index sample_family sample_tables 2 [0 # 1; 0 # 1]%Q =
  Raise IndexError.
Proof.
  apply (stale_index_raises binary64 short_index sample_family sample_tables 2
           [0 # 1; 0 # 1]%Q (list_to_set [0; 1; 2]%nat) 2%nat).
  - vm_compute. reflexivity.
  - apply elem_of_list_to_set. rewrite !elem_of_cons. lia.
  - change (1 <= 2)%nat. lia.
Defined.

(** A query whose length differs from the column count of the first hash
    function makes the whole search raise [ValueError], provided there is a
    table to probe. *)
Theorem search_dimension_mismatch (ar : arithmetic) (ragged_ok : bool)
    (qs iv : ndarray)
    (hf : ndarray) (hfs : list ndarray) (t : hash_table)
    (tables : list hash_table) (k : Z) :
  rows qs <> [] -> well_shaped qs -> ncols hf <> ncols qs ->
  custom_index_search ar ragged_ok qs iv (hf :: hfs) (t :: tables) k =
  Raise ValueError.
Proof.
  intros Hne Hqs Hd. unfold custom_index_search, result_rows.
  unfold well_shaped in Hqs.
  destruct (rows qs) as [|q qs'] eqn:Hrows; [done|].
  apply Forall_cons in Hqs as [Hq _].
  assert (search_one ar iv (hf :: hfs) (t :: tables) k q = Raise ValueError) as Hone.
  { unfold search_one, gather_candidates.
    change (zip (hf :: hfs) (t :: tables)) with ((hf, t) :: zip hfs tables).
    cbn [for_fold]. unfold probe at 2. cbn [fst snd].
    unfold hash_vector, np_dot. rewrite decide_False by congruence. done. }
  cbn [for_each]. by rewrite Hone.
Qed.

Lemma search_dimension_mismatch_witness :
  custom_index_search binary64 false (mk_ndarray 3 [[0 # 1; 0 # 1; 0 # 1]]%Q)
    sample_index
    (mk_ndarray 2 [[1 # 1; -2 # 1]]%Q :: [mk_ndarray 2 [[-2 # 1; 1 # 2]]%Q])
    (∅ :: []) 2 = Raise ValueError.
Proof.
  apply (search_dimension_mismatch binary64 false
           (mk_ndarray 3 [[0 # 1; 0 # 1; 0 # 1]]%Q) sample_index).
  - discriminate.
  - repeat constructor.
  - simpl. lia.
Defined.

(** ** [custom_indexing_algorithm]: errors; the notebook's pipeline *)

Lemma index_hash_loop_mismatch i v hfs :
  forall (done todo : list hash_table),
  Exists (fun hf => ncols hf <> length v) hfs ->
  length todo = length hfs ->
  for_fold (index_one_hash i v) (zip (seq (length done) (length hfs)) hfs)
           (done ++ todo) = Raise ValueError.
Proof.
  induction hfs as [|hf hfs IH]; intros done todo Hbad Hlen.
  - by apply Exists_nil in Hbad.
  - destruct todo as [|t todo]; [discriminate|].
    cbn [length seq zip zip_with for_fold].
    destruct (decide (ncols hf = length v)) as [Hhf|Hhf].
    + apply Exists_cons in Hbad as [?|Hbad]; [done|].
      assert (index_one_hash i v (done ++ t :: todo) (length done, hf) =
              Ok ((done ++ [bucket_append (signature_of hf v) i t]) ++ todo)) as ->.
      { unfold index_one_hash. cbn [fst snd].
        rewrite (hash_vector_Ok v hf Hhf). bind_step.
        rewrite list_lookup_middle by done.
        rewrite insert_app_r_alt by lia. rewrite Nat.sub_diag. simpl.
        by rewrite <- app_assoc. }
      bind_step.
      replace (S (length done))
        with (length (done ++ [bucket_append (signature_of hf v) i t]))
        by (rewrite length_app; simpl; lia).
      apply IH; [done | simpl in Hlen; lia].
    + assert (index_one_hash i v (done ++ t :: todo) (length done, hf) =
              Raise ValueError) as ->; [|done].
      unfold index_one_hash, hash_vector, np_dot. cbn [fst snd].
      by rewrite decide_False.
Qed.

(** A hash function whose column count differs from the vectors' dimension
    makes the builder raise [ValueError] at the first vector: no table is
    returned. *)
Theorem custom_indexing_dimension_mismatch (iv : ndarray)
    (hfs : list ndarray) :
  well_shaped iv -> rows iv <> [] ->
  Exists (fun hf => ncols hf <> ncols iv) hfs ->
  custom_indexing_algorithm iv hfs = Raise ValueError.
Proof.
  intros Hiv Hne Hbad. unfold custom_indexing_algorithm, enumerate.
  unfold well_shaped in Hiv.
  destruct (rows iv) as [|v vs]; [done|].
  apply Forall_cons in Hiv as [Hv _].
  cbn [length seq zip zip_with for_fold].
  assert (index_one_vector hfs (map (fun _ => (∅ : hash_table)) hfs) (0%nat, v) =
          Raise ValueError) as ->; [|done].
  unfold index_one_vector, enumerate. cbn [fst snd].
  apply (index_hash_loop_mismatch 0 v hfs []).
  - eapply Exists_impl; [exact Hbad|]. simpl. intros hf Hhf. congruence.
  - apply length_map.
Qed.

Lemma custom_indexing_dimension_mismatch_witness :
  custom_indexing_algorithm sample_index
    [mk_ndarray 2 [[1 # 1; -2 # 1]]%Q; mk_ndarray 3 [[1 # 1; 0 # 1; 0 # 1]]%Q] =
  Raise ValueError.
Proof.
  apply (custom_indexing_dimension_mismatch sample_index).
  - repeat constructor.
  - discriminate.
  - apply Exists_cons_tl, Exists_cons_hd. simpl. lia.
Defined.

Lemma generate_columns (D : Z) (st : RandomState) :
  0 <= D ->
  exists fam st',
    generate_random_hash_functions D st = (Ok fam, st') /\
    Forall (fun hf => ncols hf = Z.to_nat D /\ well_shaped hf) fam.
Proof.
  intros HD. unfold generate_random_hash_functions, int_pow.
  destruct (Z.ltb_spec D 0) as [|_]; [lia|].
  assert (forall n h, exists fam st',
    (let '(fam, st') := randn_family n h (Z.to_nat D) st in (Ok fam, st')) =
      (Ok fam, st') /\
    Forall (fun hf => ncols hf = Z.to_nat D /\ well_shaped hf) fam) as Hgen.
  { intros n h. pose proof (randn_family_shape n h (Z.to_nat D) st) as [_ Hf].
    destruct (randn_family n h (Z.to_nat D) st) as [fam st'].
    exists fam, st'. split; [done|].
    eapply Forall_impl; [exact Hf|]. simpl. tauto. }
  destruct (D <? 150), (D =? 0); apply Hgen.
Qed.

(** The family generated for the collection's own dimension always fits:
    the builder accepts it, and a search of queries of that dimension with
    k >= 0 gets a row for every query. *)
Theorem generated_family_fits (ar : arithmetic) (ragged_ok : bool)
    (iv qs : ndarray)
    (st : RandomState) (k : Z) :
  well_shaped iv -> well_shaped qs -> ncols qs = ncols iv -> 0 <= k ->
  exists fam st' tables res,
    generate_random_hash_functions (Z.of_nat (ncols iv)) st = (Ok fam, st') /\
    custom_indexing_algorithm iv fam = Ok tables /\
    result_rows ar qs iv fam tables k = Ok res /\
    length res = nrows qs /\
    custom_index_search ar ragged_ok qs iv fam tables k = np_array ragged_ok res.
Proof.
  intros Hiv Hqs Hcols Hk.
  destruct (generate_columns (Z.of_nat (ncols iv)) st) as (fam & st' & Hgen & Hfam);
    [lia|].
  rewrite Nat2Z.id in Hfam.
  assert (Forall (fun hf => ncols hf = ncols iv) fam) as Hfit
    by (eapply Forall_impl; [exact Hfam|]; simpl; tauto).
  pose proof (custom_indexing_algorithm_Ok iv fam Hiv Hfit) as Hbuild.
  pose proof (custom_indexing_ids_in_range iv fam _ Hiv Hfit Hbuild) as Hrange.
  destruct (result_rows_Ok ar qs iv fam _ k Hk Hcols Hqs Hfit Hrange)
    as (res & Hres & HF).
  exists fam, st', (map (fun hf => table_after hf ∅ (enumerate (rows iv))) fam), res.
  repeat split; try done.
  - symmetry. by eapply Forall2_length.
  - unfold custom_index_search. by rewrite Hres.
Qed.

Lemma generated_family_fits_witness :
  exists fam st' tables res,
    generate_random_hash_functions (Z.of_nat (ncols sample_index)) sample_state =
      (Ok fam, st') /\
    custom_indexing_algorithm sample_index fam = Ok tables /\
    result_rows binary64 sample_queries sample_index fam tables 2 = Ok res /\
    length res = nrows sample_queries /\
    custom_index_search binary64 true sample_queries sample_index fam tables 2 =
      np_array true res.
Proof.
  apply (generated_family_fits binary64 true sample_index sample_queries sample_state 2).
  - repeat constructor.
  - repeat constructor.
  - reflexivity.
  - lia.
Defined.
